(** * LILC abstract syntax tree ([ast.hpp]): data model, constructors, unparsing

    A shallow embedding of the node classes declared in [ast.hpp] of the
    LILC front end.  The header defines every constructor and the shared
    indentation helper [ASTNode::doIndent] inline; the bodies of the
    [unparse] overrides live in a translation unit that is not part of the
    header, and are modelled here from the written specification (each such
    definition says so in its documentation).

    Conventions.
    - [std::ostream&] is modelled as the text written so far ([ostream]);
      [out << s] appends.  A stream in a failed state is outside the model.
    - C++ [int] is modelled as [Z]; where the source does arithmetic on an
      [int] the absence of overflow is argued next to the definition.
    - A pointer is [null] or [ref a] for an address [a]; the objects of one
      C++ type that are alive form a [heap] of that type.  Dereferencing a
      pointer that does not designate a live object is undefined behaviour,
      modelled as [None].
    - Child pointers of AST nodes are [option]s of node values: the header
      never deletes or re-assigns a node, so a child is either the null
      pointer ([None]) or a node built earlier ([Some n]). *)

From Stdlib Require Import ZArith Lia Ascii String.
From stdpp Require Import base option list gmap strings pretty.
From Equations Require Import Equations.

Open Scope Z_scope.

(** ** The output sink *)

Definition ostream := string.

(** [out << s] on a good stream. *)
Definition put (s : string) (out : ostream) : ostream := out +:+ s.

(** ** [ASTNode::doIndent] *)

(** The string literal written by each iteration of the loop. *)
Definition indent_unit : string := " ".

(** [for (int k = 0 ; k < indent; k++){ out << " "; }], entered at counter
    value [k].  The counter is only incremented while [k < indent], so
    [k + 1 <= indent <= INT_MAX] and the increment never overflows. *)
Equations? doIndent_loop (out : ostream) (indent k : Z) : ostream
  by wf (Z.to_nat (indent - k)) lt :=
  doIndent_loop out indent k with decide (k < indent) => {
    | left _ := doIndent_loop (put indent_unit out) indent (k + 1);
    | right _ := out }.
Proof. lia. Qed.

Definition doIndent (out : ostream) (indent : Z) : ostream :=
  doIndent_loop out indent 0.

(** [n] copies of a string, the vocabulary in which the indentation written
    by [doIndent] is described. *)
Fixpoint copies (n : nat) (s : string) : string :=
  match n with
  | O => ""
  | S n' => s +:+ copies n' s
  end.

(** ** Pointers and typed heaps *)

Definition addr := positive.

Inductive ptr :=
| null
| ref (a : addr).

(** The live objects of one C++ type, by address. *)
Abbreviation heap T := (gmap addr T).

(** [*p] *)
Definition deref {T} (h : heap T) (p : ptr) : option T :=
  match p with
  | null => None
  | ref a => h !! a
  end.

(** ** Token carriers ([symbols.hpp])

    The header only uses the three token classes through pointers and, for
    [IDToken], through the accessor [value()].  Their declarations are not
    part of [ast.hpp]. *)

(** Modelled from the spec: the token carriers of [symbols.hpp], which the
    specification describes as "opaque leaf payload types holding an
    identifier string, an integer value, or a string literal". *)
Record IDToken := mkIDToken { IDToken_value : string }.
Record IntLitToken := mkIntLitToken { IntLitToken_value : Z }.
Record StringLitToken := mkStringLitToken { StringLitToken_value : string }.

(** Lexer-owned state: the token objects that are alive. *)
Record TokenMem := mkTokenMem {
  id_tokens : heap IDToken;
  int_tokens : heap IntLitToken;
  str_tokens : heap StringLitToken
}.

(** ** Node classes *)

(** [class IdNode : public ExpNode], one field [std::string myStrVal]. *)
Record IdNode := mkIdNode { myStrVal : string }.

(** [class TypeNode] (abstract) and its subclasses [IntNode], [BoolNode],
    [VoidNode], [StructNode]. *)
Inductive TypeNode :=
| IntNode
| BoolNode
| VoidNode
| StructNode (myId : option IdNode).

#[local] Unset Elimination Schemes.

(** [class ExpNode] (abstract) and the subclasses the header defines.
    [AssignNode] is a type of its own because [AssignStmtNode] holds an
    [AssignNode *]; [Exp_Id] and [Exp_Assign] are the upcasts to
    [ExpNode *]. *)
Inductive ExpNode :=
| Exp_Id (n : IdNode)
| Exp_Assign (n : AssignNode)
| DotAccessNode (myExp : option ExpNode) (myId : option IdNode)
| IntLitNode (myIntLit : ptr)
| StrLitNode (myStringLit : ptr)
| TrueNode
with AssignNode :=
| mkAssignNode (myExpNode1 myExpNode2 : option ExpNode).

(** [class ExpListNode], field [std::list<ExpNode *> myExpList]. *)
Record ExpListNode := mkExpListNode { myExpList : list (option ExpNode) }.

(** [class FormalDeclNode : public DeclNode]. *)
Record FormalDeclNode := mkFormalDeclNode {
  formal_myType : option TypeNode;
  formal_myId : option IdNode
}.

(** [class FormalsListNode], field
    [std::list<FormalDeclNode *> myFormalDeclList]. *)
Record FormalsListNode := mkFormalsListNode {
  myFormalDeclList : list (option FormalDeclNode)
}.

(** [class StmtNode] (abstract); [AssignStmtNode] is the only subclass the
    header defines. *)
Inductive StmtNode :=
| AssignStmtNode (myAssignNode : option AssignNode).

(** [class StmtListNode], field [std::list<StmtNode *> myStmtList]. *)
Record StmtListNode := mkStmtListNode { myStmtList : list (option StmtNode) }.

(** [class DeclNode] (abstract) with [VarDeclNode], [FnDeclNode],
    [FormalDeclNode] (upcast [Decl_Formal]) and [StructDeclNode];
    [class DeclListNode] with field [std::list<DeclNode *> myDecls];
    [class FnBodyNode]. *)
Inductive DeclNode :=
| VarDeclNode (myType : option TypeNode) (myId : option IdNode) (mySize : Z)
| FnDeclNode (myType : option TypeNode) (myId : option IdNode)
    (myFormalsList : option FormalsListNode) (myFnBody : option FnBodyNode)
| Decl_Formal (n : FormalDeclNode)
| StructDeclNode (myId : option IdNode) (myDeclList : option DeclListNode)
with DeclListNode :=
| mkDeclListNode (myDecls : list (option DeclNode))
with FnBodyNode :=
| mkFnBodyNode (myDeclList : option DeclListNode)
    (myStmtList : option StmtListNode).

#[local] Set Elimination Schemes.

Definition myDecls (n : DeclListNode) : list (option DeclNode) :=
  match n with mkDeclListNode l => l end.

(** [class ProgramNode], field [DeclListNode * myDeclList]. *)
Record ProgramNode := mkProgramNode { program_myDeclList : option DeclListNode }.

(** ** Constructors *)

(** [static const int NOT_STRUCT = -1;] *)
Definition NOT_STRUCT : Z := -1.

(** [VarDeclNode(TypeNode * type, IdNode * id, int size)] assigns its three
    arguments to the three fields. *)
Definition VarDeclNode_ctor (type : option TypeNode) (id : option IdNode)
    (size : Z) : DeclNode :=
  VarDeclNode type id size.

(** The stored size of a variable declaration. *)
Definition mySize (d : DeclNode) : option Z :=
  match d with
  | VarDeclNode _ _ size => Some size
  | _ => None
  end.

(** [IdNode(IDToken * token) { myStrVal = token->value(); }] *)
Definition IdNode_ctor (ids : heap IDToken) (token : ptr) : option IdNode :=
  tok ← deref ids token; Some (mkIdNode (IDToken_value tok)).

(** [IntLitNode(IntLitToken * intLit) { myIntLit = intLit; }] *)
Definition IntLitNode_ctor (intLit : ptr) : ExpNode := IntLitNode intLit.

(** [StrLitNode(StringLitToken * stringLit) { myStringLit = stringLit; }] *)
Definition StrLitNode_ctor (stringLit : ptr) : ExpNode := StrLitNode stringLit.

(** [ExpListNode(std::list<ExpNode *> expList) { myExpList = expList; }]:
    the argument is passed by value. *)
Definition ExpListNode_ctor (expList : list (option ExpNode)) : ExpListNode :=
  mkExpListNode expList.

(** [DeclListNode(std::list<DeclNode *> * decls) { myDecls = *decls; }] *)
Definition DeclListNode_ctor (lists : heap (list (option DeclNode)))
    (decls : ptr) : option DeclListNode :=
  l ← deref lists decls; Some (mkDeclListNode l).

(** [FormalsListNode(std::list<FormalDeclNode *> * formalDeclList)
     { myFormalDeclList = *formalDeclList; }] *)
Definition FormalsListNode_ctor (lists : heap (list (option FormalDeclNode)))
    (formalDeclList : ptr) : option FormalsListNode :=
  l ← deref lists formalDeclList; Some (mkFormalsListNode l).

(** [StmtListNode(std::list<StmtNode *> * stmtList)
     { myStmtList = *stmtList; }] *)
Definition StmtListNode_ctor (lists : heap (list (option StmtNode)))
    (stmtList : ptr) : option StmtListNode :=
  l ← deref lists stmtList; Some (mkStmtListNode l).

(** The token objects a node still points to after its construction. *)
Definition token_refs (e : ExpNode) : list ptr :=
  match e with
  | IntLitNode p => [p]
  | StrLitNode p => [p]
  | _ => []
  end.

(** ** Printers: the effect of a piece of unparsing code on the sink

    An [unparse] body is a sequence of writes and of calls through child
    pointers.  Its effect is a function from the sink before to the sink
    after, or [None] when it dereferences a pointer that designates no
    object. *)

Definition Printer := ostream -> option ostream.

Definition skip : Printer := Some.
Definition fault : Printer := fun _ => None.
Definition emit (s : string) : Printer := fun out => Some (put s out).
Definition indentation (indent : Z) : Printer :=
  fun out => Some (doIndent out indent).
Definition then_ (p q : Printer) : Printer := fun out => p out ≫= q.

Declare Scope printer_scope.
Delimit Scope printer_scope with printer.
Bind Scope printer_scope with Printer.
Notation "p >>> q" := (then_ p q)
  (at level 65, right associativity) : printer_scope.
Open Scope printer_scope.

Section Children.
Context {T : Type}.
Variable f : T -> Printer.

(** [child->unparse(out, ...)] through a child pointer. *)
Definition via (child : option T) : Printer :=
  match child with
  | None => fault
  | Some c => f c
  end.

(** A loop over a [std::list] of child pointers in which every child
    writes its own line. *)
Fixpoint each (l : list (option T)) : Printer :=
  match l with
  | [] => skip
  | c :: l' => via c >>> each l'
  end.

(** A loop over a [std::list] of child pointers that writes [sep] between
    two consecutive children. *)
Fixpoint separated (sep : string) (l : list (option T)) : Printer :=
  match l with
  | [] => skip
  | c :: l' =>
      match l' with
      | [] => via c
      | _ :: _ => via c >>> emit sep >>> separated sep l'
      end
  end.
End Children.

(** ** Output format

    The specification leaves the concrete tokens of the rendering open
    ("the exact indentation unit (width, character) and block-delimiter
    tokens are not shown; treat as a configuration choice fixed once and
    applied uniformly").  The indentation unit is fixed by [doIndent]; the
    other tokens are the fields of a [Format]. *)

Record Format := mkFormat {
  terminator : string;
  block_open : string;
  block_close : string;
  list_sep : string;
  args_open : string;
  args_close : string;
  size_open : string;
  size_close : string;
  field_access : string;
  assign_op : string;
  kw_int : string;
  kw_bool : string;
  kw_void : string;
  kw_struct : string;
  kw_true : string
}.

Definition space : string := " ".
Definition newline : string := String (Ascii.ascii_of_nat 10) EmptyString.

(** The tokens of the LILC concrete syntax. *)
Definition lilc : Format := {|
  terminator := ";";
  block_open := "{";
  block_close := "}";
  list_sep := ", ";
  args_open := "(";
  args_close := ")";
  size_open := "[";
  size_close := "]";
  field_access := ".";
  assign_op := "=";
  kw_int := "int";
  kw_bool := "bool";
  kw_void := "void";
  kw_struct := "struct";
  kw_true := "true"
|}.

(** ** The [unparse] overrides

    [ast.hpp] declares [unparse] in every class and defines none of the
    overrides.  The definitions of this section follow the rendering rules
    of the specification (section 4.2 and the concrete scenario of
    section 8). *)

Section Unparse.
Variable fmt : Format.
Variable tokens : TokenMem.

(** Modelled from the spec: the body of [IdNode::unparse].  "Leaf node
    variants ... render themselves directly"; "identifiers store their
    textual value at construction time". *)
Definition unparse_Id (n : IdNode) (indent : Z) : Printer :=
  emit (myStrVal n).

(** Modelled from the spec: the bodies of [IntNode::unparse],
    [BoolNode::unparse], [VoidNode::unparse] and [StructNode::unparse].
    "Type variants: Int, Bool, Void, Struct-reference: leaf or
    single-identifier-owning". *)
Definition unparse_Type (t : TypeNode) (indent : Z) : Printer :=
  match t with
  | IntNode => emit (kw_int fmt)
  | BoolNode => emit (kw_bool fmt)
  | VoidNode => emit (kw_void fmt)
  | StructNode id =>
      emit (kw_struct fmt) >>> emit space >>> via (fun n => unparse_Id n 0) id
  end.

(** Modelled from the spec: the bodies of the [unparse] overrides of the
    expression classes.  "Expressions render with no enclosing
    indentation"; "DotAccess renders its base expression, a field-access
    token, then the member identifier"; a literal renders the value held
    by its token carrier. *)
Fixpoint unparse_Exp (e : ExpNode) (indent : Z) {struct e} : Printer :=
  match e with
  | Exp_Id n => unparse_Id n indent
  | Exp_Assign a => unparse_Assign a indent
  | DotAccessNode base id =>
      via (fun b => unparse_Exp b 0) base >>>
      emit (field_access fmt) >>>
      via (fun n => unparse_Id n 0) id
  | IntLitNode p =>
      via (fun tok => emit (pretty (IntLitToken_value tok)))
          (deref (int_tokens tokens) p)
  | StrLitNode p =>
      via (fun tok => emit (StringLitToken_value tok))
          (deref (str_tokens tokens) p)
  | TrueNode => emit (kw_true fmt)
  end
with unparse_Assign (a : AssignNode) (indent : Z) {struct a} : Printer :=
  match a with
  | mkAssignNode lhs rhs =>
      via (fun l => unparse_Exp l 0) lhs >>>
      emit space >>> emit (assign_op fmt) >>> emit space >>>
      via (fun r => unparse_Exp r 0) rhs
  end.

(** Modelled from the spec: the body of [ExpListNode::unparse].
    "Sequence nodes do not indent themselves; they forward the current
    indentLevel unchanged to each child and separate children according
    to family convention (... comma-separated inline for
    formals/expressions)". *)
Definition unparse_ExpList (n : ExpListNode) (indent : Z) : Printer :=
  separated (fun e => unparse_Exp e indent) (list_sep fmt) (myExpList n).

(** Modelled from the spec: the body of [FormalDeclNode::unparse], a
    declaration rendered inline: "type, then identifier". *)
Definition unparse_FormalDecl (n : FormalDeclNode) (indent : Z) : Printer :=
  via (fun t => unparse_Type t 0) (formal_myType n) >>>
  emit space >>>
  via (fun i => unparse_Id i 0) (formal_myId n).

(** Modelled from the spec: the body of [FormalsListNode::unparse]
    (comma-separated inline, no indentation of its own). *)
Definition unparse_FormalsList (n : FormalsListNode) (indent : Z) : Printer :=
  separated (fun d => unparse_FormalDecl d indent) (list_sep fmt)
    (myFormalDeclList n).

(** Modelled from the spec: the body of [AssignStmtNode::unparse].  A
    statement begins a new logical line: indentation, content, statement
    terminator, newline. *)
Definition unparse_Stmt (s : StmtNode) (indent : Z) : Printer :=
  match s with
  | AssignStmtNode a =>
      indentation indent >>>
      via (fun a' => unparse_Assign a' 0) a >>>
      emit (terminator fmt) >>> emit newline
  end.

(** Modelled from the spec: the body of [StmtListNode::unparse]
    (newline-terminated children, no indentation of its own). *)
Definition unparse_StmtList (n : StmtListNode) (indent : Z) : Printer :=
  each (fun s => unparse_Stmt s indent) (myStmtList n).

(** Modelled from the spec: the size suffix of a variable declaration,
    the stored size written verbatim between the size delimiters. *)
Definition size_suffix (size : Z) : string :=
  size_open fmt +:+ pretty size +:+ size_close fmt.

(** Modelled from the spec: the bodies of [VarDeclNode::unparse],
    [FnDeclNode::unparse], [StructDeclNode::unparse],
    [DeclListNode::unparse] and [FnBodyNode::unparse].  "Declarations
    render type, then identifier, then (for arrays/struct instances) a
    size suffix only when the stored size is not the not-a-struct
    sentinel; terminated by a statement terminator and newline"; the
    members of a struct and the body of a function are rendered one level
    deeper, between block delimiters written at the current level. *)
Fixpoint unparse_Decl (d : DeclNode) (indent : Z) {struct d} : Printer :=
  match d with
  | VarDeclNode type id size =>
      indentation indent >>>
      via (fun t => unparse_Type t 0) type >>>
      emit space >>>
      via (fun i => unparse_Id i 0) id >>>
      (if decide (size = NOT_STRUCT) then skip else emit (size_suffix size)) >>>
      emit (terminator fmt) >>> emit newline
  | FnDeclNode type id formals body =>
      indentation indent >>>
      via (fun t => unparse_Type t 0) type >>>
      emit space >>>
      via (fun i => unparse_Id i 0) id >>>
      emit (args_open fmt) >>>
      via (fun f => unparse_FormalsList f 0) formals >>>
      emit (args_close fmt) >>>
      emit space >>> emit (block_open fmt) >>> emit newline >>>
      via (fun b => unparse_FnBody b (indent + 1)) body >>>
      indentation indent >>> emit (block_close fmt) >>> emit newline
  | Decl_Formal n => unparse_FormalDecl n indent
  | StructDeclNode id members =>
      indentation indent >>>
      emit (kw_struct fmt) >>> emit space >>>
      via (fun i => unparse_Id i 0) id >>>
      emit space >>> emit (block_open fmt) >>> emit newline >>>
      via (fun l => unparse_DeclList l (indent + 1)) members >>>
      indentation indent >>> emit (block_close fmt) >>>
      emit (terminator fmt) >>> emit newline
  end
with unparse_DeclList (n : DeclListNode) (indent : Z) {struct n} : Printer :=
  match n with
  | mkDeclListNode decls => each (fun d => unparse_Decl d indent) decls
  end
with unparse_FnBody (b : FnBodyNode) (indent : Z) {struct b} : Printer :=
  match b with
  | mkFnBodyNode decls stmts =>
      via (fun l => unparse_DeclList l indent) decls >>>
      via (fun l => unparse_StmtList l indent) stmts
  end.

(** Modelled from the spec: the body of [ProgramNode::unparse], the
    "top-level program node exposing the single public operation that
    starts recursive rendering". *)
Definition unparse_Program (p : ProgramNode) (indent : Z) : Printer :=
  via (fun l => unparse_DeclList l indent) (program_myDeclList p).

(** *** Well-formed trees

    No null child pointer, no null entry in a sequence, and every token
    pointer designates a live token. *)

Definition present {T} (ok : T -> bool) (child : option T) : bool :=
  from_option ok false child.

Definition live {T} (h : heap T) (p : ptr) : bool :=
  bool_decide (is_Some (deref h p)).

Definition wf_Id (n : IdNode) : bool := true.

Definition wf_Type (t : TypeNode) : bool :=
  match t with
  | StructNode id => present wf_Id id
  | _ => true
  end.

Fixpoint wf_Exp (e : ExpNode) : bool :=
  match e with
  | Exp_Id n => wf_Id n
  | Exp_Assign a => wf_Assign a
  | DotAccessNode base id => present wf_Exp base && present wf_Id id
  | IntLitNode p => live (int_tokens tokens) p
  | StrLitNode p => live (str_tokens tokens) p
  | TrueNode => true
  end
with wf_Assign (a : AssignNode) : bool :=
  match a with
  | mkAssignNode lhs rhs => present wf_Exp lhs && present wf_Exp rhs
  end.

Definition wf_ExpList (n : ExpListNode) : bool :=
  forallb (present wf_Exp) (myExpList n).

Definition wf_FormalDecl (n : FormalDeclNode) : bool :=
  present wf_Type (formal_myType n) && present wf_Id (formal_myId n).

Definition wf_FormalsList (n : FormalsListNode) : bool :=
  forallb (present wf_FormalDecl) (myFormalDeclList n).

Definition wf_Stmt (s : StmtNode) : bool :=
  match s with
  | AssignStmtNode a => present wf_Assign a
  end.

Definition wf_StmtList (n : StmtListNode) : bool :=
  forallb (present wf_Stmt) (myStmtList n).

Fixpoint wf_Decl (d : DeclNode) : bool :=
  match d with
  | VarDeclNode type id _ => present wf_Type type && present wf_Id id
  | FnDeclNode type id formals body =>
      present wf_Type type && present wf_Id id &&
      present wf_FormalsList formals && present wf_FnBody body
  | Decl_Formal n => wf_FormalDecl n
  | StructDeclNode id members =>
      present wf_Id id && present wf_DeclList members
  end
with wf_DeclList (n : DeclListNode) : bool :=
  match n with
  | mkDeclListNode decls => forallb (present wf_Decl) decls
  end
with wf_FnBody (b : FnBodyNode) : bool :=
  match b with
  | mkFnBodyNode decls stmts =>
      present wf_DeclList decls && present wf_StmtList stmts
  end.

Definition wf_Program (p : ProgramNode) : bool :=
  present wf_DeclList (program_myDeclList p).
End Unparse.

(** ** The class table of [ast.hpp]

    The class definitions of the header as data: the direct base class,
    whether the class re-declares [unparse] as pure virtual, and the
    parameter list of its constructor.  [SymSymbol] and [CallExpNode] are
    forward-declared in the header and never defined; they have no entry. *)

Module ClassTable.

Inductive Param :=
| PNode (cls : string)       (* [T *] for an AST class [T] *)
| PInt                       (* [int] *)
| PList (elem : string)      (* [std::list<T *>] by value *)
| PListPtr (elem : string)   (* [std::list<T *> *] *)
| PToken (cls : string).     (* pointer to a token class *)

#[global] Instance Param_eq_dec : EqDecision Param.
Proof. solve_decision. Defined.

Record ClassDef := mkClassDef {
  base : option string;
  pure_unparse : bool;
  ctor_params : list Param
}.

Definition ast_hpp : gmap string ClassDef := list_to_map [
  ("ASTNode", mkClassDef None true []);
  ("ProgramNode", mkClassDef (Some "ASTNode") false [PNode "DeclListNode"]);
  ("ExpNode", mkClassDef (Some "ASTNode") true []);
  ("ExpListNode", mkClassDef (Some "ASTNode") false [PList "ExpNode"]);
  ("DeclListNode", mkClassDef (Some "ASTNode") false [PListPtr "DeclNode"]);
  ("DeclNode", mkClassDef (Some "ASTNode") true []);
  ("VarDeclNode", mkClassDef (Some "DeclNode") false
     [PNode "TypeNode"; PNode "IdNode"; PInt]);
  ("TypeNode", mkClassDef (Some "ASTNode") true []);
  ("IdNode", mkClassDef (Some "ExpNode") false [PToken "IDToken"]);
  ("IntNode", mkClassDef (Some "TypeNode") false []);
  ("BoolNode", mkClassDef (Some "TypeNode") false []);
  ("VoidNode", mkClassDef (Some "TypeNode") false []);
  ("StructDeclNode", mkClassDef (Some "DeclNode") false
     [PNode "IdNode"; PNode "DeclListNode"]);
  ("StructNode", mkClassDef (Some "TypeNode") false [PNode "IdNode"]);
  ("FnDeclNode", mkClassDef (Some "DeclNode") false
     [PNode "TypeNode"; PNode "IdNode"; PNode "FormalsListNode";
      PNode "FnBodyNode"]);
  ("FormalDeclNode", mkClassDef (Some "DeclNode") false
     [PNode "TypeNode"; PNode "IdNode"]);
  ("FormalsListNode", mkClassDef (Some "ASTNode") false
     [PListPtr "FormalDeclNode"]);
  ("FnBodyNode", mkClassDef (Some "ASTNode") false
     [PNode "DeclListNode"; PNode "StmtListNode"]);
  ("StmtListNode", mkClassDef (Some "ASTNode") false [PListPtr "StmtNode"]);
  ("StmtNode", mkClassDef (Some "ASTNode") true []);
  ("AssignStmtNode", mkClassDef (Some "StmtNode") false [PNode "AssignNode"]);
  ("AssignNode", mkClassDef (Some "ExpNode") false
     [PNode "ExpNode"; PNode "ExpNode"]);
  ("DotAccessNode", mkClassDef (Some "ExpNode") false
     [PNode "ExpNode"; PNode "IdNode"]);
  ("IntLitNode", mkClassDef (Some "ExpNode") false [PToken "IntLitToken"]);
  ("StrLitNode", mkClassDef (Some "ExpNode") false [PToken "StringLitToken"]);
  ("TrueNode", mkClassDef (Some "ExpNode") false [])
].

(** [cls] is [anc] or inherits from it, following at most [fuel] base
    links. *)
Fixpoint inherits (fuel : nat) (cls anc : string) : bool :=
  bool_decide (cls = anc) ||
  match fuel with
  | O => false
  | S fuel' =>
      match ast_hpp !! cls with
      | Some d => from_option (fun b => inherits fuel' b anc) false (base d)
      | None => false
      end
  end.

(** The AST children among the constructor parameters, by class name. *)
Definition node_children (ps : list Param) : list string :=
  omap (fun p => match p with PNode c => Some c | _ => None end) ps.

(** A node kind of the table in the comment that opens [ast.hpp]: the
    subclass, the family it is listed under, and its children. *)
Record Kind := mkKind {
  kind_name : string;
  kind_family : string;
  kind_children : list string
}.

Definition stmt_kind (name : string) (children : list string) : Kind :=
  mkKind name "StmtNode" children.
Definition exp_kind (name : string) (children : list string) : Kind :=
  mkKind name "ExpNode" children.

(** The [StmtNode:] block of the header comment. *)
Definition stmt_kinds : list Kind := [
  stmt_kind "AssignStmtNode" ["AssignNode"];
  stmt_kind "PostIncStmtNode" ["ExpNode"];
  stmt_kind "PostDecStmtNode" ["ExpNode"];
  stmt_kind "ReadStmtNode" ["ExpNode"];
  stmt_kind "WriteStmtNode" ["ExpNode"];
  stmt_kind "IfStmtNode" ["ExpNode"; "DeclListNode"; "StmtListNode"];
  stmt_kind "IfElseStmtNode"
    ["ExpNode"; "DeclListNode"; "StmtListNode"; "DeclListNode";
     "StmtListNode"];
  stmt_kind "WhileStmtNode" ["ExpNode"; "DeclListNode"; "StmtListNode"];
  stmt_kind "CallStmtNode" ["CallExpNode"];
  stmt_kind "ReturnStmtNode" ["ExpNode"]
].

(** The [ExpNode:] block of the header comment; the operator classes are
    listed with the children of [UnaryExpNode] and [BinaryExpNode]. *)
Definition exp_kinds : list Kind := [
  exp_kind "IntLitNode" [];
  exp_kind "StrLitNode" [];
  exp_kind "TrueNode" [];
  exp_kind "FalseNode" [];
  exp_kind "IdNode" [];
  exp_kind "DotAccessNode" ["ExpNode"; "IdNode"];
  exp_kind "AssignNode" ["ExpNode"; "ExpNode"];
  exp_kind "CallExpNode" ["IdNode"; "ExpListNode"];
  exp_kind "UnaryMinusNode" ["ExpNode"];
  exp_kind "NotNode" ["ExpNode"];
  exp_kind "PlusNode" ["ExpNode"; "ExpNode"];
  exp_kind "MinusNode" ["ExpNode"; "ExpNode"];
  exp_kind "TimesNode" ["ExpNode"; "ExpNode"];
  exp_kind "DivideNode" ["ExpNode"; "ExpNode"];
  exp_kind "AndNode" ["ExpNode"; "ExpNode"];
  exp_kind "OrNode" ["ExpNode"; "ExpNode"];
  exp_kind "EqualsNode" ["ExpNode"; "ExpNode"];
  exp_kind "NotEqualsNode" ["ExpNode"; "ExpNode"];
  exp_kind "LessNode" ["ExpNode"; "ExpNode"];
  exp_kind "GreaterNode" ["ExpNode"; "ExpNode"];
  exp_kind "LessEqNode" ["ExpNode"; "ExpNode"];
  exp_kind "GreaterEqNode" ["ExpNode"; "ExpNode"]
].

(** The header provides the kind: a class of that name is defined, can be
    instantiated, belongs to the family, and its constructor takes
    exactly the enumerated children. *)
Definition provided (k : Kind) : bool :=
  match ast_hpp !! kind_name k with
  | Some d =>
      negb (pure_unparse d) &&
      inherits 8 (kind_name k) (kind_family k) &&
      bool_decide (node_children (ctor_params d) = kind_children k)
  | None => false
  end.

(** Every statement kind and every expression kind of the comment is
    provided. *)
Definition all_kinds_provided : bool :=
  forallb provided (stmt_kinds ++ exp_kinds).

Definition missing (ks : list Kind) : list string :=
  kind_name <$> filter (fun k => provided k = false) ks.

(** The class of a value of the embedded data model. *)
Definition class_of_Stmt (s : StmtNode) : string :=
  match s with
  | AssignStmtNode _ => "AssignStmtNode"
  end.

Definition class_of_Exp (e : ExpNode) : string :=
  match e with
  | Exp_Id _ => "IdNode"
  | Exp_Assign _ => "AssignNode"
  | DotAccessNode _ _ => "DotAccessNode"
  | IntLitNode _ => "IntLitNode"
  | StrLitNode _ => "StrLitNode"
  | TrueNode => "TrueNode"
  end.

(** The AST classes named by constructor parameters, as pointee or as
    element type of a list. *)
Definition param_classes (ps : list Param) : list string :=
omap (fun p => match p with
               | PNode c | PList c | PListPtr c => Some c
               | PInt | PToken _ => None
               end) ps.

(** [cls] is the direct base of a class the header defines. *)
Definition is_base (cls : string) : bool :=
bool_decide (map_Exists (fun _ d => base d = Some cls) ast_hpp).

End ClassTable.


(** ** Induction over trees

    The node types are nested through [option] and [list]; the induction
    principles below give an hypothesis for every non-null child. *)

Definition child_holds {T} (R : T -> Prop) (child : option T) : Prop :=
  from_option R True child.

Section ExpNode_induction.
Variables (P : ExpNode -> Prop) (Q : AssignNode -> Prop).
Hypothesis H_Id : forall n, P (Exp_Id n).
Hypothesis H_Assign : forall a, Q a -> P (Exp_Assign a).
Hypothesis H_DotAccess :
  forall base id, child_holds P base -> P (DotAccessNode base id).
Hypothesis H_IntLit : forall p, P (IntLitNode p).
Hypothesis H_StrLit : forall p, P (StrLitNode p).
Hypothesis H_True : P TrueNode.
Hypothesis H_mkAssign :
  forall lhs rhs, child_holds P lhs -> child_holds P rhs ->
                  Q (mkAssignNode lhs rhs).

Fixpoint ExpNode_tree_ind (e : ExpNode) : P e :=
  match e with
  | Exp_Id n => H_Id n
  | Exp_Assign a => H_Assign a (AssignNode_tree_ind a)
  | DotAccessNode base id =>
      H_DotAccess base id
        (match base as c return child_holds P c with
         | Some b => ExpNode_tree_ind b
         | None => I
         end)
  | IntLitNode p => H_IntLit p
  | StrLitNode p => H_StrLit p
  | TrueNode => H_True
  end
with AssignNode_tree_ind (a : AssignNode) : Q a :=
  match a with
  | mkAssignNode lhs rhs =>
      H_mkAssign lhs rhs
        (match lhs as c return child_holds P c with
         | Some l => ExpNode_tree_ind l
         | None => I
         end)
        (match rhs as c return child_holds P c with
         | Some r => ExpNode_tree_ind r
         | None => I
         end)
  end.
End ExpNode_induction.

Section DeclNode_induction.
Variables (P : DeclNode -> Prop) (Q : DeclListNode -> Prop)
          (R : FnBodyNode -> Prop).
Hypothesis H_VarDecl : forall type id size, P (VarDeclNode type id size).
Hypothesis H_FnDecl :
  forall type id formals body,
    child_holds R body -> P (FnDeclNode type id formals body).
Hypothesis H_Formal : forall n, P (Decl_Formal n).
Hypothesis H_StructDecl :
  forall id members, child_holds Q members -> P (StructDeclNode id members).
Hypothesis H_DeclList :
  forall decls, Forall (child_holds P) decls -> Q (mkDeclListNode decls).
Hypothesis H_FnBody :
  forall decls stmts, child_holds Q decls -> R (mkFnBodyNode decls stmts).

Fixpoint DeclNode_tree_ind (d : DeclNode) : P d :=
  match d with
  | VarDeclNode type id size => H_VarDecl type id size
  | FnDeclNode type id formals body =>
      H_FnDecl type id formals body
        (match body as c return child_holds R c with
         | Some b => FnBodyNode_tree_ind b
         | None => I
         end)
  | Decl_Formal n => H_Formal n
  | StructDeclNode id members =>
      H_StructDecl id members
        (match members as c return child_holds Q c with
         | Some l => DeclListNode_tree_ind l
         | None => I
         end)
  end
with DeclListNode_tree_ind (n : DeclListNode) : Q n :=
  match n with
  | mkDeclListNode decls =>
      H_DeclList decls
        ((fix all (l : list (option DeclNode)) : Forall (child_holds P) l :=
            match l with
            | [] => @List.Forall_nil _ (child_holds P)
            | c :: l' =>
                @List.Forall_cons _ (child_holds P) c l'
                  (match c as c' return child_holds P c' with
                   | Some d => DeclNode_tree_ind d
                   | None => I
                   end)
                  (all l')
            end) decls)
  end
with FnBodyNode_tree_ind (b : FnBodyNode) : R b :=
  match b with
  | mkFnBodyNode decls stmts =>
      H_FnBody decls stmts
        (match decls as c return child_holds Q c with
         | Some l => DeclListNode_tree_ind l
         | None => I
         end)
  end.
End DeclNode_induction.

(** ** The builder's object store

    The parser assembles a [std::list] of child pointers on the heap, hands
    it to the constructor of a list node, and is free to go on using the
    list.  Working sequences and list nodes are objects of one store; a
    list node holds its member sequence as a data member. *)

Inductive Seq :=
| DeclSeq (l : list (option DeclNode))
| FormalSeq (l : list (option FormalDeclNode))
| StmtSeq (l : list (option StmtNode))
| ExpSeq (l : list (option ExpNode)).

Inductive ListKind := KDecl | KFormals | KStmt | KExp.

#[global] Instance ListKind_eq_dec : EqDecision ListKind.
Proof. solve_decision. Defined.

Definition seq_kind (s : Seq) : ListKind :=
  match s with
  | DeclSeq _ => KDecl
  | FormalSeq _ => KFormals
  | StmtSeq _ => KStmt
  | ExpSeq _ => KExp
  end.

Inductive ListNode :=
| LDecl (n : DeclListNode)
| LFormals (n : FormalsListNode)
| LStmt (n : StmtListNode)
| LExp (n : ExpListNode).

(** The member sequence held by a list node. *)
Definition members (n : ListNode) : Seq :=
  match n with
  | LDecl n => DeclSeq (myDecls n)
  | LFormals n => FormalSeq (myFormalDeclList n)
  | LStmt n => StmtSeq (myStmtList n)
  | LExp n => ExpSeq (myExpList n)
  end.

Inductive Obj :=
| OSeq (s : Seq)
| ONode (n : ListNode).

Abbreviation Store := (gmap addr Obj).

(** The working sequences of one element type, as a typed heap. *)
Definition decl_seqs (st : Store) : heap (list (option DeclNode)) :=
  omap (fun o => match o with OSeq (DeclSeq l) => Some l | _ => None end) st.
Definition formal_seqs (st : Store) : heap (list (option FormalDeclNode)) :=
  omap (fun o => match o with OSeq (FormalSeq l) => Some l | _ => None end) st.
Definition stmt_seqs (st : Store) : heap (list (option StmtNode)) :=
  omap (fun o => match o with OSeq (StmtSeq l) => Some l | _ => None end) st.
Definition exp_seqs (st : Store) : heap (list (option ExpNode)) :=
  omap (fun o => match o with OSeq (ExpSeq l) => Some l | _ => None end) st.

(** [new T(...)]: the object is placed at an address not in use. *)
Definition alloc (st : Store) (o : Obj) : addr * Store :=
  let a := fresh (dom st) in (a, <[a := o]> st).

(** [new DeclListNode(decls)], [new FormalsListNode(formals)],
    [new StmtListNode(stmts)] and [new ExpListNode( *exps)]; the last
    constructor takes the sequence by value, so the call copies it out of
    the working sequence. *)
Definition new_list_node (k : ListKind) (st : Store) (p : ptr)
    : option (addr * Store) :=
  match k with
  | KDecl =>
      n ← DeclListNode_ctor (decl_seqs st) p; Some (alloc st (ONode (LDecl n)))
  | KFormals =>
      n ← FormalsListNode_ctor (formal_seqs st) p;
      Some (alloc st (ONode (LFormals n)))
  | KStmt =>
      n ← StmtListNode_ctor (stmt_seqs st) p; Some (alloc st (ONode (LStmt n)))
  | KExp =>
      l ← deref (exp_seqs st) p;
      Some (alloc st (ONode (LExp (ExpListNode_ctor l))))
  end.

(** What the builder may do afterwards: change a working sequence in place
    ([push_back], [pop_front], [clear], assignment, ...), create further
    objects, or destroy a working sequence. *)
Inductive BuilderOp :=
| Mutate (a : addr) (s' : Seq)
| Allocate (o : Obj)
| Destroy (a : addr).

Definition run_op (st : Store) (op : BuilderOp) : option Store :=
  match op with
  | Mutate a s' =>
      match st !! a with
      | Some (OSeq s) =>
          if decide (seq_kind s = seq_kind s') then Some (<[a := OSeq s']> st)
          else None
      | _ => None
      end
  | Allocate o => Some (alloc st o).2
  | Destroy a =>
      match st !! a with
      | Some (OSeq _) => Some (delete a st)
      | _ => None
      end
  end.

Fixpoint run_ops (st : Store) (ops : list BuilderOp) : option Store :=
  match ops with
  | [] => Some st
  | op :: ops' => st' ← run_op st op; run_ops st' ops'
  end.

(** ** Token capture by leaf nodes *)

(** A leaf is detached from the lexer: it points to no token object, and
    what it renders does not depend on the state of the token memory. *)
Definition leaf_detached (tokens : TokenMem) (e : ExpNode) : Prop :=
  token_refs e = [] /\
  forall fmt tokens' indent out,
    unparse_Exp fmt tokens' e indent out = unparse_Exp fmt tokens e indent out.

(** ** A sample program

    One struct with two integer fields, one of them sized, and a function
    [main] that declares a struct variable and assigns a literal to one of
    its fields.  The integer literal points to a token owned by the lexer. *)

Definition sample_tokens : TokenMem :=
  mkTokenMem {[ 2%positive := mkIDToken "p" ]}
             {[ 1%positive := mkIntLitToken 5 ]}
             {[ 3%positive := mkStringLitToken "hello" ]}.

(** The same memory after the lexer has overwritten the integer token. *)
Definition sample_tokens_reused : TokenMem :=
  mkTokenMem (id_tokens sample_tokens)
             (<[ 1%positive := mkIntLitToken 7 ]> (int_tokens sample_tokens))
             (str_tokens sample_tokens).

Definition sample_struct : DeclNode :=
  StructDeclNode (Some (mkIdNode "P"))
    (Some (mkDeclListNode [
       Some (VarDeclNode_ctor (Some IntNode) (Some (mkIdNode "x")) NOT_STRUCT);
       Some (VarDeclNode_ctor (Some IntNode) (Some (mkIdNode "y")) 3)])).

Definition sample_main : DeclNode :=
  FnDeclNode (Some VoidNode) (Some (mkIdNode "main"))
    (Some (mkFormalsListNode []))
    (Some (mkFnBodyNode
       (Some (mkDeclListNode [
          Some (VarDeclNode_ctor (Some (StructNode (Some (mkIdNode "P"))))
                  (Some (mkIdNode "p")) NOT_STRUCT)]))
       (Some (mkStmtListNode [
          Some (AssignStmtNode (Some (mkAssignNode
            (Some (DotAccessNode (Some (Exp_Id (mkIdNode "p")))
                     (Some (mkIdNode "x"))))
            (Some (IntLitNode_ctor (ref 1%positive))))))])))).

Definition sample_program : ProgramNode :=
  mkProgramNode (Some (mkDeclListNode [Some sample_struct; Some sample_main])).

(** A builder store with one working sequence of declarations. *)
Definition sample_store : Store :=
  {[ 1%positive := OSeq (DeclSeq [Some sample_struct; Some sample_main]) ]}.

Definition sample_text : string :=
  "struct P {
 int x;
 int y[3];
};
void main() {
 struct P p;
 p.x = 5;
}
".

(** ** The indentation loop with the range of [int] written out

    The embedding [doIndent_loop] increments its counter in [Z].  The
    variant below stops with [None] where the increment [k++] of the C++
    loop would overflow [int], which is undefined behaviour. *)

Definition INT_MAX : Z := 2147483647.

Equations? doIndent_loop_checked (out : ostream) (indent k : Z)
  : option ostream by wf (Z.to_nat (indent - k)) lt :=
  doIndent_loop_checked out indent k with decide (k < indent) => {
    | left _ with decide (k < INT_MAX) => {
        | left _ :=
            doIndent_loop_checked (put indent_unit out) indent (k + 1);
        | right _ := None };
    | right _ := Some out }.
Proof. lia. Qed.

Definition doIndent_checked (out : ostream) (indent : Z) : option ostream :=
  doIndent_loop_checked out indent 0.

(** ** Nodes built from a working sequence *)

(** The list node a constructor builds from the sequence it reads. *)
Definition node_of_seq (s : Seq) : ListNode :=
  match s with
  | DeclSeq l => LDecl (mkDeclListNode l)
  | FormalSeq l => LFormals (mkFormalsListNode l)
  | StmtSeq l => LStmt (mkStmtListNode l)
  | ExpSeq l => LExp (ExpListNode_ctor l)
  end.

(** ** The tokens a tree points to

    Literal nodes keep the pointer to their token, so the token memory is
    state that a render reads.  [refs_Program] collects the token pointers
    of a tree, by token class. *)


#[global] Instance IntLitToken_eq_dec : EqDecision IntLitToken.
Proof. solve_decision. Defined.

#[global] Instance StringLitToken_eq_dec : EqDecision StringLitToken.
Proof. solve_decision. Defined.










(** ** Nesting depth

    The greatest number of levels below the starting level at which the
    modelled render starts a line of the tree: the members of a struct and
    the body of a function are one level below their declaration. *)





(** No line of the text begins with a space. *)
Fixpoint unindented_from (line_start : bool) (text : string) : bool :=
  match text with
  | EmptyString => true
  | String c rest =>
      negb (line_start && Ascii.eqb c " ") &&
      unindented_from (Ascii.eqb c (Ascii.ascii_of_nat 10)) rest
  end.

Definition unindented (text : string) : bool := unindented_from true text.



(** ** Observations on printers *)

(** The text a printer writes, observed on an empty sink. *)
Definition text_of (p : Printer) : option string := p "".

(** The only effect of the printer on a sink is to append its text: what it
    writes does not depend on what the sink already holds. *)
Definition append_only (p : Printer) : Prop :=
  forall out, p out = String.append out <$> text_of p.

(** The printer dereferences no dangling or null pointer. *)
Definition faultless (p : Printer) : Prop :=
  forall out, is_Some (p out).

(** * Properties *)

(** ** Text *)

Lemma append_cons (x : Ascii.ascii) (a b : string) :
  String x a +:+ b = String x (a +:+ b).
Proof. reflexivity. Qed.

Lemma append_empty_l (a : string) : "" +:+ a = a.
Proof. reflexivity. Qed.

Lemma append_assoc (a b c : string) : (a +:+ b) +:+ c = a +:+ (b +:+ c).
Proof.
  induction a as [|x a IH]; [reflexivity|].
  rewrite !append_cons. now rewrite IH.
Qed.

Lemma append_empty_r (a : string) : a +:+ "" = a.
Proof.
  induction a as [|x a IH]; [reflexivity|].
  rewrite append_cons. now rewrite IH.
Qed.

Lemma copies_spaces (n : nat) :
  copies n indent_unit = String.string_of_list_ascii (replicate n " "%char).
Proof.
  induction n as [|n IH]; [reflexivity|].
  simpl. rewrite <- IH. reflexivity.
Qed.

Lemma copies_length (n : nat) : String.length (copies n indent_unit) = n.
Proof.
  induction n as [|n IH]; [reflexivity|].
  simpl copies. unfold indent_unit at 1. rewrite append_cons, append_empty_l.
  simpl. now rewrite IH.
Qed.

(** ** The indentation loop *)

(** Entered at counter value [k], the loop appends one indentation unit for
    every integer from [k] up to but excluding [indent]. *)
Lemma doIndent_loop_spec (out : ostream) (indent k : Z) :
  doIndent_loop out indent k =
  out +:+ copies (Z.to_nat (indent - k)) indent_unit.
Proof.
  funelim (doIndent_loop out indent k).
  - match goal with IH : doIndent_loop _ _ _ = _ +:+ _ |- _ => rewrite IH end.
    replace (Z.to_nat (indent - k)) with (S (Z.to_nat (indent - (k + 1))))
      by lia.
    unfold put. simpl copies. apply append_assoc.
  - replace (Z.to_nat (indent - k)) with O by lia.
    simpl copies. symmetry. apply append_empty_r.
Qed.

Lemma doIndent_spec (out : ostream) (indent : Z) :
  doIndent out indent = out +:+ copies (Z.to_nat indent) indent_unit.
Proof.
  unfold doIndent. rewrite doIndent_loop_spec. now rewrite Z.sub_0_r.
Qed.

(** C2: for a non-negative level [n], [doIndent(out, n)] appends to the sink
    exactly [n] copies of the indentation unit and nothing else, and the
    unit is the single space character: the text that follows is preceded
    by exactly [n] spaces. *)
Theorem doIndent_writes_n_spaces (out : ostream) (n : Z) :
  0 <= n ->
  doIndent out n = out +:+ String.string_of_list_ascii (replicate (Z.to_nat n) " "%char)
  /\ indent_unit = String " "%char EmptyString
  /\ Z.of_nat (String.length (copies (Z.to_nat n) indent_unit)) = n.
Proof.
  intros Hn. split; [|split].
  - rewrite doIndent_spec. now rewrite copies_spaces.
  - reflexivity.
  - rewrite copies_length. lia.
Qed.

Lemma doIndent_writes_n_spaces_witness :
  doIndent "int" 3 = "int   ".
Proof.
  destruct (doIndent_writes_n_spaces "int" 3) as [H _]; [lia|].
  rewrite H. reflexivity.
Defined.

(** With a level that is zero or negative the loop condition fails at once. *)
Lemma doIndent_loop_not_entered (out : ostream) (indent : Z) :
  indent <= 0 -> doIndent_loop out indent 0 = out.
Proof.
  intros Hle. simp doIndent_loop.
  destruct (decide (0 < indent)) as [Hlt|Hge]; [lia | reflexivity].
Qed.

(** ** Algebra of printers *)

Create HintDb printer.

Lemma append_only_skip : append_only skip.
Proof. intros out. cbn. now rewrite append_empty_r. Qed.

Lemma append_only_fault : append_only fault.
Proof. intros out. reflexivity. Qed.

Lemma append_only_emit (s : string) : append_only (emit s).
Proof. intros out. reflexivity. Qed.

Lemma append_only_indentation (indent : Z) : append_only (indentation indent).
Proof.
  intros out. unfold text_of, indentation. cbn.
  now rewrite !doIndent_spec, append_empty_l.
Qed.

Lemma append_only_then (p q : Printer) :
  append_only p -> append_only q -> append_only (p >>> q).
Proof.
  intros Hp Hq out. unfold text_of, then_. rewrite (Hp out). unfold text_of.
  destruct (p "") as [s|]; cbn; [|reflexivity].
  rewrite (Hq (out +:+ s)), (Hq s). unfold text_of.
  destruct (q "") as [t|]; cbn; [|reflexivity].
  now rewrite append_assoc.
Qed.

Lemma append_only_via {T} (f : T -> Printer) (child : option T) :
  child_holds (fun c => append_only (f c)) child -> append_only (via f child).
Proof. destruct child; cbn; [trivial | intros _; apply append_only_fault]. Qed.

Lemma append_only_each {T} (f : T -> Printer) (l : list (option T)) :
  Forall (child_holds (fun c => append_only (f c))) l ->
  append_only (each f l).
Proof.
  induction 1 as [|c l Hc _ IH]; cbn [each].
  - apply append_only_skip.
  - apply append_only_then; [now apply append_only_via | exact IH].
Qed.

Lemma append_only_separated {T} (f : T -> Printer) (sep : string)
    (l : list (option T)) :
  Forall (child_holds (fun c => append_only (f c))) l ->
  append_only (separated f sep l).
Proof.
  induction 1 as [|c l Hc Hl IH]; cbn [separated].
  - apply append_only_skip.
  - destruct l as [|c' l'].
    + now apply append_only_via.
    + apply append_only_then; [now apply append_only_via|].
      apply append_only_then; [apply append_only_emit | exact IH].
Qed.

Lemma child_holds_all {T} (R : T -> Prop) (child : option T) :
  (forall c, R c) -> child_holds R child.
Proof. intros H. destruct child; cbn; auto. Qed.

Lemma Forall_child_holds_all {T} (R : T -> Prop) (l : list (option T)) :
  (forall c, R c) -> Forall (child_holds R) l.
Proof. intros H. apply Forall_forall. intros c _. now apply child_holds_all. Qed.

#[local] Hint Resolve append_only_skip append_only_fault append_only_emit
  append_only_indentation append_only_then append_only_via
  append_only_each append_only_separated child_holds_all
  Forall_child_holds_all : printer.

Lemma faultless_skip : faultless skip.
Proof. intros out. now eexists. Qed.

Lemma faultless_emit (s : string) : faultless (emit s).
Proof. intros out. now eexists. Qed.

Lemma faultless_indentation (indent : Z) : faultless (indentation indent).
Proof. intros out. now eexists. Qed.

Lemma faultless_then (p q : Printer) :
  faultless p -> faultless q -> faultless (p >>> q).
Proof.
  intros Hp Hq out. unfold then_.
  destruct (Hp out) as [mid ->]. cbn. apply Hq.
Qed.

Lemma faultless_via {T} (ok : T -> bool) (f : T -> Printer) (child : option T) :
  present ok child = true ->
  child_holds (fun c => ok c = true -> faultless (f c)) child ->
  faultless (via f child).
Proof. destruct child; cbn; [auto | discriminate]. Qed.

Lemma faultless_each {T} (ok : T -> bool) (f : T -> Printer)
    (l : list (option T)) :
  forallb (present ok) l = true ->
  Forall (child_holds (fun c => ok c = true -> faultless (f c))) l ->
  faultless (each f l).
Proof.
  intros Hwf Hall. induction Hall as [|c l Hc _ IH]; cbn [each].
  - apply faultless_skip.
  - cbn in Hwf. apply andb_prop in Hwf as [Hwc Hwl].
    apply faultless_then; [now apply (faultless_via ok) | now apply IH].
Qed.

Lemma faultless_separated {T} (ok : T -> bool) (f : T -> Printer)
    (sep : string) (l : list (option T)) :
  forallb (present ok) l = true ->
  Forall (child_holds (fun c => ok c = true -> faultless (f c))) l ->
  faultless (separated f sep l).
Proof.
  intros Hwf Hall. induction Hall as [|c l Hc _ IH]; cbn [separated].
  - apply faultless_skip.
  - cbn in Hwf. apply andb_prop in Hwf as [Hwc Hwl].
    destruct l as [|c' l'].
    + now apply (faultless_via ok).
    + apply faultless_then; [now apply (faultless_via ok)|].
      apply faultless_then; [apply faultless_emit | now apply IH].
Qed.

#[local] Hint Resolve faultless_skip faultless_emit faultless_indentation
  faultless_then : printer.

(** ** Unparsing appends a text that depends on the tree only *)

Section UnparseFacts.
Variable fmt : Format.
Variable tokens : TokenMem.

Ltac chain :=
  repeat apply append_only_then; auto with printer.

Lemma append_only_Id n indent : append_only (unparse_Id n indent).
Proof. apply append_only_emit. Qed.

Lemma append_only_Type t indent : append_only (unparse_Type fmt t indent).
Proof.
  destruct t; cbn; auto with printer.
  chain. apply append_only_via, child_holds_all. intros; apply append_only_Id.
Qed.

Hint Resolve append_only_Id append_only_Type : printer.

Lemma append_only_Exp_Assign :
  (forall e indent, append_only (unparse_Exp fmt tokens e indent)) /\
  (forall a indent, append_only (unparse_Assign fmt tokens a indent)).
Proof.
  assert (Hid : forall id : option IdNode,
             append_only (via (fun n => unparse_Id n 0) id)).
  { intros id. apply append_only_via, child_holds_all.
    intros; apply append_only_Id. }
  assert (Hsub : forall c : option ExpNode,
             child_holds (fun e => forall indent,
               append_only (unparse_Exp fmt tokens e indent)) c ->
             append_only (via (fun e => unparse_Exp fmt tokens e 0) c)).
  { intros [e|] H; cbn in *; auto with printer. }
  split.
  - intros e.
    apply (ExpNode_tree_ind
             (fun e => forall indent,
                  append_only (unparse_Exp fmt tokens e indent))
             (fun a => forall indent,
                  append_only (unparse_Assign fmt tokens a indent)));
      intros; cbn [unparse_Exp unparse_Assign unparse_Id]; chain.
  - intros a.
    apply (AssignNode_tree_ind
             (fun e => forall indent,
                  append_only (unparse_Exp fmt tokens e indent))
             (fun a => forall indent,
                  append_only (unparse_Assign fmt tokens a indent)));
      intros; cbn [unparse_Exp unparse_Assign unparse_Id]; chain.
Qed.

Lemma append_only_Exp e indent : append_only (unparse_Exp fmt tokens e indent).
Proof. apply append_only_Exp_Assign. Qed.

Lemma append_only_Assign a indent :
  append_only (unparse_Assign fmt tokens a indent).
Proof. apply append_only_Exp_Assign. Qed.

Lemma append_only_ExpList n indent :
  append_only (unparse_ExpList fmt tokens n indent).
Proof.
  apply append_only_separated, Forall_child_holds_all.
  intros; apply append_only_Exp.
Qed.

Lemma append_only_FormalDecl n indent :
  append_only (unparse_FormalDecl fmt n indent).
Proof.
  unfold unparse_FormalDecl.
  apply append_only_then;
    [apply append_only_via, child_holds_all; intros; apply append_only_Type|].
  apply append_only_then; [apply append_only_emit|].
  apply append_only_via, child_holds_all; intros; apply append_only_Id.
Qed.

Lemma append_only_FormalsList n indent :
  append_only (unparse_FormalsList fmt n indent).
Proof.
  apply append_only_separated, Forall_child_holds_all.
  intros; apply append_only_FormalDecl.
Qed.

Lemma append_only_Stmt s indent :
  append_only (unparse_Stmt fmt tokens s indent).
Proof.
  destruct s as [a]. cbn.
  apply append_only_then; [apply append_only_indentation|].
  apply append_only_then;
    [apply append_only_via, child_holds_all; intros; apply append_only_Assign|].
  chain.
Qed.

Lemma append_only_StmtList n indent :
  append_only (unparse_StmtList fmt tokens n indent).
Proof.
  apply append_only_each, Forall_child_holds_all.
  intros; apply append_only_Stmt.
Qed.

Hint Resolve append_only_Exp append_only_Assign append_only_ExpList
  append_only_FormalDecl append_only_FormalsList append_only_Stmt
  append_only_StmtList : printer.

Lemma append_only_Decl_family :
  (forall d indent, append_only (unparse_Decl fmt tokens d indent)) /\
  (forall n indent, append_only (unparse_DeclList fmt tokens n indent)) /\
  (forall b indent, append_only (unparse_FnBody fmt tokens b indent)).
Proof.
  pose (P := fun d => forall indent,
               append_only (unparse_Decl fmt tokens d indent)).
  pose (Q := fun n => forall indent,
               append_only (unparse_DeclList fmt tokens n indent)).
  pose (R := fun b => forall indent,
               append_only (unparse_FnBody fmt tokens b indent)).
  assert (Hsub : forall T (S : T -> Prop) (f : T -> Printer) c,
             child_holds S c -> (forall x, S x -> append_only (f x)) ->
             append_only (via f c)).
  { intros T S f [x|] H Hf; cbn in *; auto with printer. }
  assert (HVar : forall type id size, P (VarDeclNode type id size)).
  { intros type id size indent. cbn [unparse_Decl].
    destruct (decide (size = NOT_STRUCT)); chain. }
  assert (HFn : forall type id formals body,
             child_holds R body -> P (FnDeclNode type id formals body)).
  { intros type id formals body Hb indent. cbn [unparse_Decl].
    repeat apply append_only_then; auto with printer.
    apply (Hsub _ R); [exact Hb | intros x Hx; apply Hx]. }
  assert (HFormal : forall n, P (Decl_Formal n)).
  { intros n indent. cbn [unparse_Decl]. auto with printer. }
  assert (HStruct : forall id members,
             child_holds Q members -> P (StructDeclNode id members)).
  { intros id members Hm indent. cbn [unparse_Decl].
    repeat apply append_only_then; auto with printer.
    apply (Hsub _ Q); [exact Hm | intros x Hx; apply Hx]. }
  assert (HList : forall decls,
             Forall (child_holds P) decls -> Q (mkDeclListNode decls)).
  { intros decls Hall indent. cbn [unparse_DeclList].
    apply append_only_each. eapply Forall_impl; [exact Hall|].
    intros [d|] Hd; cbn in *; auto. }
  assert (HBody : forall decls stmts,
             child_holds Q decls -> R (mkFnBodyNode decls stmts)).
  { intros decls stmts Hd indent. cbn [unparse_FnBody].
    apply append_only_then; auto with printer.
    apply (Hsub _ Q); [exact Hd | intros x Hx; apply Hx]. }
  split; [|split].
  - exact (DeclNode_tree_ind P Q R HVar HFn HFormal HStruct HList HBody).
  - exact (DeclListNode_tree_ind P Q R HVar HFn HFormal HStruct HList HBody).
  - exact (FnBodyNode_tree_ind P Q R HVar HFn HFormal HStruct HList HBody).
Qed.

Lemma append_only_DeclList n indent :
  append_only (unparse_DeclList fmt tokens n indent).
Proof. apply append_only_Decl_family. Qed.

Lemma append_only_Program p indent :
  append_only (unparse_Program fmt tokens p indent).
Proof.
  apply append_only_via, child_holds_all.
  intros; apply append_only_DeclList.
Qed.

(** The sink after a printer that appends only, in terms of its text. *)
Lemma append_only_run (p : Printer) (out : ostream) (text : string) :
  append_only p -> text_of p = Some text -> p out = Some (out +:+ text).
Proof. intros Hp Ht. rewrite (Hp out), Ht. reflexivity. Qed.
End UnparseFacts.

(** ** Unparsing a well-formed tree dereferences live pointers only *)

Lemma faultless_via_all {T} (ok : T -> bool) (f : T -> Printer)
    (child : option T) :
  present ok child = true ->
  (forall c, ok c = true -> faultless (f c)) ->
  faultless (via f child).
Proof. destruct child; cbn; [auto | discriminate]. Qed.

Lemma faultless_live {T} (h : heap T) (p : ptr) (f : T -> Printer) :
  live h p = true -> (forall x, faultless (f x)) -> faultless (via f (deref h p)).
Proof.
  unfold live. intros Hl Hf. apply bool_decide_eq_true in Hl as [x ->].
  cbn. apply Hf.
Qed.

Section Faultless.
Variable fmt : Format.
Variable tokens : TokenMem.

Ltac split_wf :=
  repeat match goal with
         | H : _ && _ = true |- _ => apply andb_prop in H as [? ?]
         end.

Ltac steps := repeat apply faultless_then; auto with printer.

Lemma faultless_Id n indent : wf_Id n = true -> faultless (unparse_Id n indent).
Proof. intros _. apply faultless_emit. Qed.

Lemma faultless_Type t indent :
  wf_Type t = true -> faultless (unparse_Type fmt t indent).
Proof.
  destruct t; cbn; intros Hwf; steps.
  eapply faultless_via_all; [exact Hwf | intros; now apply faultless_Id].
Qed.

Lemma faultless_Exp_Assign :
  (forall e indent,
      wf_Exp tokens e = true -> faultless (unparse_Exp fmt tokens e indent)) /\
  (forall a indent,
      wf_Assign tokens a = true ->
      faultless (unparse_Assign fmt tokens a indent)).
Proof.
  pose (P := fun e => forall indent,
               wf_Exp tokens e = true ->
               faultless (unparse_Exp fmt tokens e indent)).
  pose (Q := fun a => forall indent,
               wf_Assign tokens a = true ->
               faultless (unparse_Assign fmt tokens a indent)).
  assert (Hsub : forall c : option ExpNode,
             child_holds P c -> present (wf_Exp tokens) c = true ->
             faultless (via (fun e => unparse_Exp fmt tokens e 0) c)).
  { intros [e|] H Hwf; cbn in *; [now apply H | discriminate]. }
  assert (HId : forall n, P (Exp_Id n)).
  { intros n indent Hwf. now apply faultless_Id. }
  assert (HAssign : forall a, Q a -> P (Exp_Assign a)).
  { intros a Ha indent Hwf. now apply Ha. }
  assert (HDot : forall base id, child_holds P base -> P (DotAccessNode base id)).
  { intros base id Hb indent Hwf. cbn in Hwf. split_wf.
    cbn [unparse_Exp]. steps.
    eapply faultless_via_all; [eassumption | intros; now apply faultless_Id]. }
  assert (HInt : forall p, P (IntLitNode p)).
  { intros p indent Hwf. cbn in *.
    apply faultless_live; [exact Hwf | intros; apply faultless_emit]. }
  assert (HStr : forall p, P (StrLitNode p)).
  { intros p indent Hwf. cbn in *.
    apply faultless_live; [exact Hwf | intros; apply faultless_emit]. }
  assert (HTrue : P TrueNode).
  { intros indent _. apply faultless_emit. }
  assert (Hmk : forall lhs rhs, child_holds P lhs -> child_holds P rhs ->
                                Q (mkAssignNode lhs rhs)).
  { intros lhs rhs Hl Hr indent Hwf. cbn in Hwf. split_wf.
    cbn [unparse_Assign]. steps. }
  split.
  - exact (ExpNode_tree_ind P Q HId HAssign HDot HInt HStr HTrue Hmk).
  - exact (AssignNode_tree_ind P Q HId HAssign HDot HInt HStr HTrue Hmk).
Qed.

Lemma faultless_ExpList n indent :
  wf_ExpList tokens n = true -> faultless (unparse_ExpList fmt tokens n indent).
Proof.
  intros Hwf. apply (faultless_separated (wf_Exp tokens)); [exact Hwf|].
  apply Forall_child_holds_all. intros e. apply faultless_Exp_Assign.
Qed.

Lemma faultless_FormalDecl n indent :
  wf_FormalDecl n = true -> faultless (unparse_FormalDecl fmt n indent).
Proof.
  unfold wf_FormalDecl, unparse_FormalDecl. intros Hwf. split_wf. steps.
  - eapply faultless_via_all; [eassumption | intros; now apply faultless_Type].
  - eapply faultless_via_all; [eassumption | intros; now apply faultless_Id].
Qed.

Lemma faultless_FormalsList n indent :
  wf_FormalsList n = true -> faultless (unparse_FormalsList fmt n indent).
Proof.
  intros Hwf. apply (faultless_separated wf_FormalDecl); [exact Hwf|].
  apply Forall_child_holds_all. intros d. apply faultless_FormalDecl.
Qed.

Lemma faultless_Stmt s indent :
  wf_Stmt tokens s = true -> faultless (unparse_Stmt fmt tokens s indent).
Proof.
  destruct s as [a]. cbn. intros Hwf. steps.
  eapply faultless_via_all; [exact Hwf|].
  intros a'. apply faultless_Exp_Assign.
Qed.

Lemma faultless_StmtList n indent :
  wf_StmtList tokens n = true ->
  faultless (unparse_StmtList fmt tokens n indent).
Proof.
  intros Hwf. apply (faultless_each (wf_Stmt tokens)); [exact Hwf|].
  apply Forall_child_holds_all. intros s. apply faultless_Stmt.
Qed.

Lemma faultless_Decl_family :
  (forall d indent,
      wf_Decl tokens d = true ->
      faultless (unparse_Decl fmt tokens d indent)) /\
  (forall n indent,
      wf_DeclList tokens n = true ->
      faultless (unparse_DeclList fmt tokens n indent)) /\
  (forall b indent,
      wf_FnBody tokens b = true ->
      faultless (unparse_FnBody fmt tokens b indent)).
Proof.
  pose (P := fun d => forall indent,
               wf_Decl tokens d = true ->
               faultless (unparse_Decl fmt tokens d indent)).
  pose (Q := fun n => forall indent,
               wf_DeclList tokens n = true ->
               faultless (unparse_DeclList fmt tokens n indent)).
  pose (R := fun b => forall indent,
               wf_FnBody tokens b = true ->
               faultless (unparse_FnBody fmt tokens b indent)).
  assert (Htype : forall type : option TypeNode,
             present wf_Type type = true ->
             faultless (via (fun t => unparse_Type fmt t 0) type)).
  { intros type H. eapply faultless_via_all; [exact H|].
    intros; now apply faultless_Type. }
  assert (Hid : forall id : option IdNode,
             present wf_Id id = true ->
             faultless (via (fun i => unparse_Id i 0) id)).
  { intros id H. eapply faultless_via_all; [exact H|].
    intros; now apply faultless_Id. }
  assert (HVar : forall type id size, P (VarDeclNode type id size)).
  { intros type id size indent Hwf. cbn in Hwf. split_wf.
    cbn [unparse_Decl]. destruct (decide (size = NOT_STRUCT)); steps. }
  assert (HFn : forall type id formals body,
             child_holds R body -> P (FnDeclNode type id formals body)).
  { intros type id formals body Hb indent Hwf. cbn in Hwf. split_wf.
    cbn [unparse_Decl]. steps.
    - eapply faultless_via_all; [eassumption|].
      intros; now apply faultless_FormalsList.
    - eapply (faultless_via (wf_FnBody tokens)); [eassumption|].
      destruct body as [b|]; cbn in *; [intros; now apply Hb | trivial]. }
  assert (HFormal : forall n, P (Decl_Formal n)).
  { intros n indent Hwf. now apply faultless_FormalDecl. }
  assert (HStruct : forall id members,
             child_holds Q members -> P (StructDeclNode id members)).
  { intros id members Hm indent Hwf. cbn in Hwf. split_wf.
    cbn [unparse_Decl]. steps.
    eapply (faultless_via (wf_DeclList tokens)); [eassumption|].
    destruct members as [l|]; cbn in *; [intros; now apply Hm | trivial]. }
  assert (HList : forall decls,
             Forall (child_holds P) decls -> Q (mkDeclListNode decls)).
  { intros decls Hall indent Hwf. cbn in Hwf. cbn [unparse_DeclList].
    apply (faultless_each (wf_Decl tokens)); [exact Hwf|].
    eapply Forall_impl; [exact Hall|].
    intros [d|] Hd; cbn in *; [intros; now apply Hd | trivial]. }
  assert (HBody : forall decls stmts,
             child_holds Q decls -> R (mkFnBodyNode decls stmts)).
  { intros decls stmts Hd indent Hwf. cbn in Hwf. split_wf.
    cbn [unparse_FnBody]. steps.
    - eapply (faultless_via (wf_DeclList tokens)); [eassumption|].
      destruct decls as [l|]; cbn in *; [intros; now apply Hd | trivial].
    - eapply faultless_via_all; [eassumption|].
      intros; now apply faultless_StmtList. }
  split; [|split].
  - exact (DeclNode_tree_ind P Q R HVar HFn HFormal HStruct HList HBody).
  - exact (DeclListNode_tree_ind P Q R HVar HFn HFormal HStruct HList HBody).
  - exact (FnBodyNode_tree_ind P Q R HVar HFn HFormal HStruct HList HBody).
Qed.

Lemma faultless_Program p indent :
  wf_Program tokens p = true ->
  faultless (unparse_Program fmt tokens p indent).
Proof.
  intros Hwf. eapply faultless_via_all; [exact Hwf|].
  intros l. apply faultless_Decl_family.
Qed.
End Faultless.

(** ** Rendering whole programs *)

Example sample_program_rendering :
  unparse_Program lilc sample_tokens sample_program 0 "" = Some sample_text.
Proof. vm_compute. reflexivity. Qed.

Example sample_program_wf : wf_Program sample_tokens sample_program = true.
Proof. vm_compute. reflexivity. Qed.

(** C8: rendering a well-formed tree never fails: for every format, token
    memory, starting level and sink, [unparse] of the program returns, and
    what it returns is the sink extended by a finite text. *)
Theorem render_never_fails (fmt : Format) (tokens : TokenMem)
    (p : ProgramNode) (indent : Z) (out : ostream) :
  wf_Program tokens p = true ->
  exists text, unparse_Program fmt tokens p indent out = Some (out +:+ text).
Proof.
  intros Hwf.
  destruct (faultless_Program fmt tokens p indent Hwf "") as [text Htext].
  exists text. apply append_only_run; [apply append_only_Program | exact Htext].
Qed.

Lemma render_never_fails_witness :
  exists text,
    unparse_Program lilc sample_tokens sample_program 0 "" = Some ("" +:+ text).
Proof.
  apply (render_never_fails lilc sample_tokens sample_program 0 "").
  vm_compute. reflexivity.
Defined.

(** A line that starts at a level that is zero or negative is rendered as at
    level zero: no indentation is written before it. *)
Lemma unparse_Stmt_nonpositive_level (fmt : Format) (tokens : TokenMem)
    (s : StmtNode) (indent : Z) (out : ostream) :
  indent <= 0 ->
  unparse_Stmt fmt tokens s indent out = unparse_Stmt fmt tokens s 0 out.
Proof.
  intros Hle. destruct s as [a]. cbn [unparse_Stmt]. unfold then_, indentation.
  unfold doIndent. rewrite !doIndent_loop_not_entered by lia. reflexivity.
Qed.

Lemma unparse_VarDecl_nonpositive_level (fmt : Format) (tokens : TokenMem)
    (type : option TypeNode) (id : option IdNode) (size indent : Z)
    (out : ostream) :
  indent <= 0 ->
  unparse_Decl fmt tokens (VarDeclNode_ctor type id size) indent out =
  unparse_Decl fmt tokens (VarDeclNode_ctor type id size) 0 out.
Proof.
  intros Hle. unfold VarDeclNode_ctor. cbn [unparse_Decl].
  unfold then_ at 1 7. unfold indentation, doIndent.
  rewrite !doIndent_loop_not_entered by lia. reflexivity.
Qed.

(** ** Variable declarations and the size sentinel *)

Lemma then_run (p q : Printer) (out mid : ostream) :
  p out = Some mid -> (p >>> q) out = q mid.
Proof. intros H. unfold then_. now rewrite H. Qed.

(** C1: a variable declaration built with [VarDeclNode::NOT_STRUCT] as its
    size renders as indentation, type, identifier, terminator and newline,
    with nothing between the identifier and the terminator; built with any
    other size, it renders the stored size, in decimal and between the size
    delimiters, at that place. *)
Theorem VarDecl_size_suffix (fmt : Format) (tokens : TokenMem)
    (type : TypeNode) (id : IdNode) (size indent : Z) (out : ostream)
    (type_text : string) :
  text_of (unparse_Type fmt type 0) = Some type_text ->
  let d := VarDeclNode_ctor (Some type) (Some id) size in
  let head :=
    out +:+ copies (Z.to_nat indent) indent_unit +:+ type_text
        +:+ space +:+ myStrVal id in
  mySize d = Some size /\
  (size = NOT_STRUCT ->
   unparse_Decl fmt tokens d indent out =
   Some (head +:+ terminator fmt +:+ newline)) /\
  (size <> NOT_STRUCT ->
   unparse_Decl fmt tokens d indent out =
   Some (head +:+ (size_open fmt +:+ pretty size +:+ size_close fmt)
              +:+ terminator fmt +:+ newline)).
Proof.
  intros Htype d head. split; [reflexivity|].
  assert (Hhead :
    forall rest : Printer,
      (indentation indent >>>
       via (fun t => unparse_Type fmt t 0) (Some type) >>>
       emit space >>>
       via (fun i => unparse_Id i 0) (Some id) >>> rest) out = rest head).
  { intros rest.
    rewrite (then_run _ _ out (doIndent out indent)) by reflexivity.
    rewrite (then_run _ _ _ (doIndent out indent +:+ type_text))
      by (cbn [via]; apply append_only_run;
          [apply append_only_Type | exact Htype]).
    rewrite (then_run _ _ _ ((doIndent out indent +:+ type_text) +:+ space))
      by reflexivity.
    rewrite (then_run _ _ _
               (((doIndent out indent +:+ type_text) +:+ space) +:+ myStrVal id))
      by reflexivity.
    f_equal. subst head. rewrite doIndent_spec.
    now rewrite !append_assoc. }
  subst d. unfold VarDeclNode_ctor. cbn [unparse_Decl].
  split; intros Hsize.
  - rewrite Hhead. destruct (decide (size = NOT_STRUCT)); [|contradiction].
    cbn. unfold emit, put. now rewrite !append_assoc.
  - rewrite Hhead. destruct (decide (size = NOT_STRUCT)); [contradiction|].
    cbn. unfold emit, put, size_suffix. now rewrite !append_assoc.
Qed.

Lemma VarDecl_size_suffix_witness :
  unparse_Decl lilc sample_tokens
    (VarDeclNode_ctor (Some IntNode) (Some (mkIdNode "n")) NOT_STRUCT) 2 "" =
  Some ("  int n;" +:+ newline)
  /\
  unparse_Decl lilc sample_tokens
    (VarDeclNode_ctor (Some IntNode) (Some (mkIdNode "n")) 12) 2 "" =
  Some ("  int n[12];" +:+ newline).
Proof.
  split.
  - apply (VarDecl_size_suffix lilc sample_tokens IntNode (mkIdNode "n")
             NOT_STRUCT 2 "" "int"); reflexivity.
  - apply (VarDecl_size_suffix lilc sample_tokens IntNode (mkIdNode "n")
             12 2 "" "int"); [reflexivity | discriminate].
Defined.

(** ** Construction of list nodes *)

(** C10: the constructors of [DeclListNode], [FormalsListNode] and
    [StmtListNode] dereference the list pointer they are given: with the
    null pointer construction has no defined result, and with a pointer to
    a list construction succeeds and yields a node holding that list.  The
    constructor of [ExpListNode] takes the list itself and always
    succeeds. *)
Theorem list_ctor_pointer_precondition
    (decls : heap (list (option DeclNode)))
    (formals : heap (list (option FormalDeclNode)))
    (stmts : heap (list (option StmtNode)))
    (ad af a_s : addr) ld lf ls (le : list (option ExpNode)) :
  decls !! ad = Some ld ->
  formals !! af = Some lf ->
  stmts !! a_s = Some ls ->
  (DeclListNode_ctor decls null = None /\
   FormalsListNode_ctor formals null = None /\
   StmtListNode_ctor stmts null = None) /\
  (DeclListNode_ctor decls (ref ad) = Some (mkDeclListNode ld) /\
   FormalsListNode_ctor formals (ref af) = Some (mkFormalsListNode lf) /\
   StmtListNode_ctor stmts (ref a_s) = Some (mkStmtListNode ls)) /\
  myExpList (ExpListNode_ctor le) = le.
Proof.
  intros Hd Hf Hs.
  unfold DeclListNode_ctor, FormalsListNode_ctor, StmtListNode_ctor.
  cbn [deref]. rewrite Hd, Hf, Hs. repeat split.
Qed.

Lemma list_ctor_pointer_precondition_witness :
  DeclListNode_ctor {[ 1%positive := [Some sample_struct] ]} (ref 1%positive) =
  Some (mkDeclListNode [Some sample_struct]).
Proof.
  apply (list_ctor_pointer_precondition
           {[ 1%positive := [Some sample_struct] ]}
           {[ 2%positive := [] ]} {[ 3%positive := [] ]}
           1%positive 2%positive 3%positive
           [Some sample_struct] [] [] []); reflexivity.
Defined.

(** C7: a list node built from an empty sequence writes nothing: rendering
    it at any level leaves the sink exactly as it was, without delimiter,
    separator or indentation. *)
Theorem empty_list_renders_nothing (fmt : Format) (tokens : TokenMem)
    (decls : heap (list (option DeclNode)))
    (formals : heap (list (option FormalDeclNode)))
    (stmts : heap (list (option StmtNode)))
    (pd pf ps : ptr) (indent : Z) (out : ostream) :
  deref decls pd = Some [] ->
  deref formals pf = Some [] ->
  deref stmts ps = Some [] ->
  (DeclListNode_ctor decls pd ≫=
     fun n => unparse_DeclList fmt tokens n indent out) = Some out /\
  (FormalsListNode_ctor formals pf ≫=
     fun n => unparse_FormalsList fmt n indent out) = Some out /\
  (StmtListNode_ctor stmts ps ≫=
     fun n => unparse_StmtList fmt tokens n indent out) = Some out /\
  unparse_ExpList fmt tokens (ExpListNode_ctor []) indent out = Some out.
Proof.
  intros Hd Hf Hs.
  unfold DeclListNode_ctor, FormalsListNode_ctor, StmtListNode_ctor.
  rewrite Hd, Hf, Hs. repeat split.
Qed.

Lemma empty_list_renders_nothing_witness :
  (DeclListNode_ctor {[ 1%positive := [] ]} (ref 1%positive) ≫=
     fun n => unparse_DeclList lilc sample_tokens n 4 "{") = Some "{" /\
  (FormalsListNode_ctor {[ 2%positive := [] ]} (ref 2%positive) ≫=
     fun n => unparse_FormalsList lilc n 4 "{") = Some "{" /\
  (StmtListNode_ctor {[ 3%positive := [] ]} (ref 3%positive) ≫=
     fun n => unparse_StmtList lilc sample_tokens n 4 "{") = Some "{" /\
  unparse_ExpList lilc sample_tokens (ExpListNode_ctor []) 4 "{" = Some "{".
Proof.
  apply (empty_list_renders_nothing lilc sample_tokens
           {[ 1%positive := [] ]} {[ 2%positive := [] ]} {[ 3%positive := [] ]}
           (ref 1%positive) (ref 2%positive) (ref 3%positive) 4 "{");
    reflexivity.
Defined.

(** ** List nodes own a copy of their sequence *)

Lemma run_op_keeps_nodes (st st' : Store) (op : BuilderOp) (b : addr)
    (n : ListNode) :
  run_op st op = Some st' ->
  st !! b = Some (ONode n) -> st' !! b = Some (ONode n).
Proof.
  intros Hrun Hb. destruct op as [a s'|o|a]; cbn in Hrun.
  - destruct (st !! a) as [[s|?]|] eqn:Ha; try discriminate.
    destruct (decide (seq_kind s = seq_kind s')); [|discriminate].
    injection Hrun as <-. rewrite lookup_insert_ne; [exact Hb | congruence].
  - injection Hrun as <-. rewrite lookup_insert_ne; [exact Hb|].
    intros Heq. apply (is_fresh (dom st)). rewrite Heq.
    apply elem_of_dom. rewrite Hb. now eexists.
  - destruct (st !! a) as [[s|?]|] eqn:Ha; try discriminate.
    injection Hrun as <-. rewrite lookup_delete_ne; [exact Hb | congruence].
Qed.

Lemma run_ops_keeps_nodes (ops : list BuilderOp) (st st' : Store) (b : addr)
    (n : ListNode) :
  run_ops st ops = Some st' ->
  st !! b = Some (ONode n) -> st' !! b = Some (ONode n).
Proof.
  revert st. induction ops as [|op ops IH]; intros st Hrun Hb; cbn in Hrun.
  - now injection Hrun as <-.
  - destruct (run_op st op) as [mid|] eqn:Hop; [|discriminate]. cbn in Hrun.
    apply (IH mid); [exact Hrun|]. now apply (run_op_keeps_nodes st mid op).
Qed.

Lemma new_list_node_copies (k : ListKind) (st st1 : Store) (p : ptr)
    (b : addr) :
  new_list_node k st p = Some (b, st1) ->
  exists n, st1 !! b = Some (ONode n) /\ deref st p = Some (OSeq (members n)).
Proof.
  intros Hnew. destruct p as [|a].
  { destruct k; discriminate. }
  destruct k; cbn in Hnew;
    unfold DeclListNode_ctor, FormalsListNode_ctor, StmtListNode_ctor,
      decl_seqs, formal_seqs, stmt_seqs, exp_seqs in Hnew;
    cbn [deref] in Hnew; rewrite lookup_omap in Hnew;
    destruct (st !! a) as [[[l|l|l|l]|?]|] eqn:Ha; try discriminate;
    cbn in Hnew; injection Hnew as <- <-;
    (eexists; split; [apply lookup_insert_eq | cbn; now rewrite Ha]).
Qed.

(** C6: a list node holds a copy of the sequence its constructor was handed.
    Whatever the builder does afterwards to its working sequences (changing
    them in place, creating objects, destroying the sequence), the node is
    still in the store with the member sequence it was built from. *)
Theorem list_node_sequence_frozen (k : ListKind) (st st1 st2 : Store)
    (p : ptr) (b : addr) (ops : list BuilderOp) :
  new_list_node k st p = Some (b, st1) ->
  run_ops st1 ops = Some st2 ->
  exists n,
    st1 !! b = Some (ONode n) /\
    st2 !! b = Some (ONode n) /\
    deref st p = Some (OSeq (members n)).
Proof.
  intros Hnew Hrun.
  destruct (new_list_node_copies k st st1 p b Hnew) as (n & Hb & Hseq).
  exists n. split; [exact Hb|]. split; [|exact Hseq].
  now apply (run_ops_keeps_nodes ops st1 st2).
Qed.

Lemma list_node_sequence_frozen_witness :
  exists n,
    (alloc sample_store
       (ONode (LDecl (mkDeclListNode [Some sample_struct; Some sample_main])))).2
      !! 2%positive = Some (ONode n) /\
    ({[ 2%positive :=
          ONode (LDecl (mkDeclListNode [Some sample_struct; Some sample_main]));
        3%positive := OSeq (ExpSeq []) ]} : Store) !! 2%positive
      = Some (ONode n) /\
    deref sample_store (ref 1%positive) = Some (OSeq (members n)).
Proof.
  apply (list_node_sequence_frozen KDecl sample_store _ _ (ref 1%positive)
           2%positive
           [Mutate 1%positive (DeclSeq [Some sample_main]);
            Allocate (OSeq (ExpSeq []));
            Mutate 1%positive (DeclSeq []);
            Destroy 1%positive]); vm_compute; reflexivity.
Defined.

(** ** Leaf nodes and their tokens *)

Example IntLitNode_reads_token_at_render_time :
  unparse_Exp lilc sample_tokens (IntLitNode_ctor (ref 1%positive)) 0 "" =
    Some "5" /\
  unparse_Exp lilc sample_tokens_reused (IntLitNode_ctor (ref 1%positive)) 0 "" =
    Some "7".
Proof. split; vm_compute; reflexivity. Qed.

(** C3, as stated, fails for literals: the integer-literal node built from
    the token at address 1 still points to that token, and what it renders
    changes when the lexer overwrites the token. *)
Lemma IntLitNode_not_detached :
  token_refs (IntLitNode_ctor (ref 1%positive)) = [ref 1%positive] /\
  unparse_Exp lilc sample_tokens_reused (IntLitNode_ctor (ref 1%positive)) 0 ""
    <> unparse_Exp lilc sample_tokens (IntLitNode_ctor (ref 1%positive)) 0 ""
  /\
  ~ leaf_detached sample_tokens (IntLitNode_ctor (ref 1%positive)).
Proof.
  assert (Hdiff :
    unparse_Exp lilc sample_tokens_reused (IntLitNode_ctor (ref 1%positive)) 0 ""
    <> unparse_Exp lilc sample_tokens (IntLitNode_ctor (ref 1%positive)) 0 "").
  { vm_compute. discriminate. }
  split; [reflexivity|]. split; [exact Hdiff|].
  intros [_ Hsame]. apply Hdiff, Hsame.
Qed.

(** C3, amended: an identifier node copies the text of its token when it is
    constructed and keeps no pointer to the token, so its rendering is the
    same in every later state of the token memory.  An integer-literal or
    string-literal node stores the token pointer it was given, and its
    rendering is the value found behind that pointer when it is rendered. *)
Theorem leaf_token_capture (tokens : TokenMem) (token : ptr) (tok : IDToken) :
  deref (id_tokens tokens) token = Some tok ->
  (exists n,
      IdNode_ctor (id_tokens tokens) token = Some n /\
      myStrVal n = IDToken_value tok /\
      leaf_detached tokens (Exp_Id n)) /\
  (forall p,
      token_refs (IntLitNode_ctor p) = [p] /\
      token_refs (StrLitNode_ctor p) = [p]) /\
  (forall fmt p indent out,
      unparse_Exp fmt tokens (IntLitNode_ctor p) indent out =
      (fun t => out +:+ pretty (IntLitToken_value t)) <$>
        deref (int_tokens tokens) p /\
      unparse_Exp fmt tokens (StrLitNode_ctor p) indent out =
      (fun t => out +:+ StringLitToken_value t) <$>
        deref (str_tokens tokens) p).
Proof.
  intros Htok. split; [|split].
  - exists (mkIdNode (IDToken_value tok)).
    unfold IdNode_ctor. rewrite Htok. cbn.
    repeat split; reflexivity.
  - intros p. split; reflexivity.
  - intros fmt p indent out. cbn.
    split.
    + destruct (deref (int_tokens tokens) p); reflexivity.
    + destruct (deref (str_tokens tokens) p); reflexivity.
Qed.

Lemma leaf_token_capture_witness :
  exists n,
    IdNode_ctor (id_tokens sample_tokens) (ref 2%positive) = Some n /\
    myStrVal n = "p" /\
    leaf_detached sample_tokens (Exp_Id n).
Proof.
  apply (leaf_token_capture sample_tokens (ref 2%positive) (mkIDToken "p")).
  reflexivity.
Defined.

(** ** Node kinds *)

(** C4 fails on the header: of the ten statement kinds of its opening
    comment only [AssignStmtNode] is defined, and of the expression kinds
    [FalseNode], [CallExpNode], the two unary and the twelve binary operator
    classes are not; every statement of the data model is an assignment
    statement. *)
Theorem header_missing_kinds :
  ClassTable.all_kinds_provided = false /\
  ClassTable.missing ClassTable.stmt_kinds =
    ["PostIncStmtNode"; "PostDecStmtNode"; "ReadStmtNode"; "WriteStmtNode";
     "IfStmtNode"; "IfElseStmtNode"; "WhileStmtNode"; "CallStmtNode";
     "ReturnStmtNode"] /\
  ClassTable.missing ClassTable.exp_kinds =
    ["FalseNode"; "CallExpNode"; "UnaryMinusNode"; "NotNode"; "PlusNode";
     "MinusNode"; "TimesNode"; "DivideNode"; "AndNode"; "OrNode";
     "EqualsNode"; "NotEqualsNode"; "LessNode"; "GreaterNode"; "LessEqNode";
     "GreaterEqNode"] /\
  (forall s : StmtNode, ClassTable.class_of_Stmt s = "AssignStmtNode") /\
  (forall e : ExpNode,
      In (ClassTable.class_of_Exp e)
         ["IdNode"; "AssignNode"; "DotAccessNode"; "IntLitNode"; "StrLitNode";
          "TrueNode"]).
Proof.
  split; [vm_compute; reflexivity|].
  split; [vm_compute; reflexivity|].
  split; [vm_compute; reflexivity|].
  split.
  - intros []. reflexivity.
  - intros []; cbn; tauto.
Qed.

(** * Further properties of the header *)

(** ** More on [doIndent] *)

Lemma length_append (a b : string) :
  String.length (a +:+ b) = (String.length a + String.length b)%nat.
Proof.
  induction a as [|x a IH]; [reflexivity|].
  rewrite append_cons. cbn [String.length]. now rewrite IH.
Qed.

Lemma copies_add (m n : nat) (s : string) :
  copies (m + n) s = copies m s +:+ copies n s.
Proof.
  induction m as [|m IH]; [reflexivity|].
  cbn [Nat.add copies]. now rewrite IH, append_assoc.
Qed.

(** X1: two calls of [doIndent] in a row indent by the sum of the two
    levels, each level counted as zero when it is negative. *)
Theorem doIndent_twice (out : ostream) (a b : Z) :
  doIndent (doIndent out a) b = doIndent out (Z.max 0 a + Z.max 0 b).
Proof.
  rewrite !doIndent_spec, append_assoc, <- copies_add.
  do 2 f_equal. lia.
Qed.

(** X2: [doIndent] lengthens the sink by [indent] characters, and by none
    when [indent] is negative. *)
Theorem doIndent_length (out : ostream) (indent : Z) :
  Z.of_nat (String.length (doIndent out indent)) =
  Z.of_nat (String.length out) + Z.max 0 indent.
Proof.
  rewrite doIndent_spec, length_append, copies_length. lia.
Qed.

(** X3: on the same sink two levels give the same output exactly when they
    are equal or both not positive: the level of a line can be read back
    from the indentation written for it. *)
Theorem doIndent_level_determined (out : ostream) (a b : Z) :
  doIndent out a = doIndent out b <-> Z.max 0 a = Z.max 0 b.
Proof.
  split.
  - intros Heq. apply (f_equal String.length) in Heq.
    apply (f_equal Z.of_nat) in Heq. rewrite !doIndent_length in Heq. lia.
  - intros Heq. rewrite !doIndent_spec. do 2 f_equal. lia.
Qed.

Lemma doIndent_loop_checked_agrees (out : ostream) (indent k : Z) :
  indent <= INT_MAX ->
  doIndent_loop_checked out indent k = Some (doIndent_loop out indent k).
Proof.
  intros Hmax. funelim (doIndent_loop_checked out indent k).
  - f_equal. simp doIndent_loop.
    destruct (decide (k < indent)); [lia | reflexivity].
  - match goal with
    | IH : _ -> doIndent_loop_checked _ _ _ = Some _ |- _ => rewrite IH by lia
    end.
    f_equal. rewrite !doIndent_loop_spec.
    replace (Z.to_nat (indent - k)) with (S (Z.to_nat (indent - (k + 1))))
      by lia.
    unfold put. cbn [copies]. apply append_assoc.
  - lia.
Qed.

(** X4: for every level that is a value of [int], the counter of the loop
    never overflows: the loop with the overflow check written out returns,
    and returns what the embedding [doIndent] returns. *)
Theorem doIndent_no_overflow (out : ostream) (indent : Z) :
  indent <= INT_MAX ->
  doIndent_checked out indent = Some (doIndent out indent).
Proof. intros Hmax. now apply doIndent_loop_checked_agrees. Qed.

Lemma doIndent_no_overflow_witness :
  doIndent_checked "x" 6 = Some (doIndent "x" 6).
Proof. apply (doIndent_no_overflow "x" 6). vm_compute. discriminate. Defined.

Example doIndent_checked_detects_overflow :
  doIndent_loop_checked "" (INT_MAX + 1) INT_MAX = None.
Proof. reflexivity. Qed.

(** ** More on the constructors *)

(** X5: the constructor of [IdNode] has a result exactly when its argument
    designates a live token, and the node it builds carries the text of the
    token and nothing else: two live tokens give equal nodes exactly when
    their texts are equal. *)
Theorem IdNode_ctor_text_only (ids : heap IDToken) (p1 p2 : ptr)
    (t1 t2 : IDToken) :
  deref ids p1 = Some t1 ->
  deref ids p2 = Some t2 ->
  (forall p, IdNode_ctor ids p = None <-> deref ids p = None) /\
  IdNode_ctor ids p1 = Some (mkIdNode (IDToken_value t1)) /\
  (IdNode_ctor ids p1 = IdNode_ctor ids p2 <->
   IDToken_value t1 = IDToken_value t2).
Proof.
  intros H1 H2. unfold IdNode_ctor. split; [|split].
  - intros p. destruct (deref ids p); cbn; split; congruence.
  - now rewrite H1.
  - rewrite H1, H2. cbn. split; [congruence | now intros ->].
Qed.

Lemma IdNode_ctor_text_only_witness :
  IdNode_ctor {[ 1%positive := mkIDToken "x"; 2%positive := mkIDToken "x" ]}
    (ref 1%positive) =
  IdNode_ctor {[ 1%positive := mkIDToken "x"; 2%positive := mkIDToken "x" ]}
    (ref 2%positive).
Proof.
  apply (IdNode_ctor_text_only
           {[ 1%positive := mkIDToken "x"; 2%positive := mkIDToken "x" ]}
           (ref 1%positive) (ref 2%positive) (mkIDToken "x") (mkIDToken "x"));
    reflexivity.
Defined.

Lemma members_node_of_seq (s : Seq) : members (node_of_seq s) = s.
Proof. destruct s; reflexivity. Qed.

Lemma new_list_node_at (k : ListKind) (st : Store) (a : addr) (s : Seq) :
  st !! a = Some (OSeq s) -> seq_kind s = k ->
  new_list_node k st (ref a) = Some (alloc st (ONode (node_of_seq s))).
Proof.
  intros Ha <-.
  destruct s; cbn;
    unfold DeclListNode_ctor, FormalsListNode_ctor, StmtListNode_ctor,
      decl_seqs, formal_seqs, stmt_seqs, exp_seqs;
    cbn [deref]; rewrite lookup_omap, Ha; reflexivity.
Qed.

(** X6: building a list node through a pointer has a result exactly when the
    pointer designates a working sequence of the element type of the node;
    the null pointer, a pointer to no object and a pointer to an object of
    another type give none. *)
Theorem new_list_node_defined_iff (k : ListKind) (st : Store) (p : ptr) :
  is_Some (new_list_node k st p) <->
  exists s, deref st p = Some (OSeq s) /\ seq_kind s = k.
Proof.
  split.
  - intros [[b st1] Hnew].
    destruct (new_list_node_copies k st st1 p b Hnew) as (n & _ & Hseq).
    exists (members n). split; [exact Hseq|].
    destruct p as [|a]; [discriminate|]. cbn in Hseq.
    destruct k; cbn in Hnew;
      unfold DeclListNode_ctor, FormalsListNode_ctor, StmtListNode_ctor,
        decl_seqs, formal_seqs, stmt_seqs, exp_seqs in Hnew;
      cbn [deref] in Hnew; rewrite lookup_omap, Hseq in Hnew;
      destruct (members n); try discriminate; reflexivity.
  - intros (s & Hp & Hk). destruct p as [|a]; [discriminate|].
    rewrite (new_list_node_at k st a s Hp Hk). now eexists.
Qed.

(** X7: building a list node changes nothing that existed: the node is
    placed at an address that was free, every other object of the store,
    the working sequence included, is as before. *)
Theorem new_list_node_frame (k : ListKind) (st st1 : Store) (p : ptr)
    (b : addr) :
  new_list_node k st p = Some (b, st1) ->
  st !! b = None /\
  (forall a, a <> b -> st1 !! a = st !! a) /\
  deref st1 p = deref st p.
Proof.
  intros Hnew.
  assert (Halloc : exists o, (b, st1) = alloc st o).
  { destruct k; cbn in Hnew;
      match type of Hnew with
      | (?c ≫= _) = _ => destruct c; [|discriminate]
      end; cbn in Hnew; injection Hnew as <- <-; now eexists. }
  destruct Halloc as [o Halloc]. unfold alloc in Halloc.
  injection Halloc as -> ->.
  assert (Hfree : st !! fresh (dom st) = None).
  { apply not_elem_of_dom, is_fresh. }
  split; [exact Hfree|]. split.
  - intros a Ha. now rewrite lookup_insert_ne.
  - destruct p as [|a]; [reflexivity|]. cbn.
    destruct (new_list_node_copies k st _ (ref a) _ Hnew) as (n & _ & Hseq).
    cbn in Hseq. rewrite lookup_insert_ne; [reflexivity|].
    intros Heq. rewrite <- Heq, Hfree in Hseq. discriminate.
Qed.

Lemma new_list_node_frame_witness :
  sample_store !! 2%positive = None /\
  (forall a, a <> 2%positive ->
     (alloc sample_store
        (ONode (LDecl (mkDeclListNode [Some sample_struct; Some sample_main])))).2
       !! a = sample_store !! a) /\
  deref (alloc sample_store
           (ONode (LDecl (mkDeclListNode [Some sample_struct; Some sample_main])))).2
        (ref 1%positive) = deref sample_store (ref 1%positive).
Proof.
  apply (new_list_node_frame KDecl sample_store _ (ref 1%positive) 2%positive).
  vm_compute. reflexivity.
Defined.

Lemma doIndent_level_determined_witness : doIndent "x" (-3) = doIndent "x" 0.
Proof. apply (doIndent_level_determined "x" (-3) 0). reflexivity. Defined.

Lemma new_list_node_defined_iff_witness :
  is_Some (new_list_node KDecl sample_store (ref 1%positive)).
Proof.
  apply (new_list_node_defined_iff KDecl sample_store (ref 1%positive)).
  eexists. split; reflexivity.
Defined.

(** X8: two list nodes built from one working sequence, one before and one
    after the builder changed the sequence in place, are two objects; the
    first holds the members the sequence had when it was built, the second
    the members the sequence has now. *)
Theorem list_nodes_are_snapshots (k : ListKind) (st : Store) (a : addr)
    (s s' : Seq) :
  st !! a = Some (OSeq s) ->
  seq_kind s = k ->
  seq_kind s' = k ->
  exists b1 st1 st2 b2 st3 n1 n2,
    new_list_node k st (ref a) = Some (b1, st1) /\
    run_op st1 (Mutate a s') = Some st2 /\
    new_list_node k st2 (ref a) = Some (b2, st3) /\
    b1 <> b2 /\
    st3 !! b1 = Some (ONode n1) /\ members n1 = s /\
    st3 !! b2 = Some (ONode n2) /\ members n2 = s'.
Proof.
  intros Ha Hs Hs'.
  set (b1 := fresh (dom st)).
  set (st1 := <[b1 := ONode (node_of_seq s)]> st).
  set (st2 := <[a := OSeq s']> st1).
  set (b2 := fresh (dom st2)).
  set (st3 := <[b2 := ONode (node_of_seq s')]> st2).
  assert (Hab1 : a <> b1).
  { intros Heq. apply (is_fresh (dom st)). fold b1. rewrite <- Heq.
    apply elem_of_dom. rewrite Ha. now eexists. }
  assert (Ha1 : st1 !! a = Some (OSeq s)).
  { subst st1. now rewrite lookup_insert_ne. }
  assert (Hb1 : st2 !! b1 = Some (ONode (node_of_seq s))).
  { subst st2 st1. rewrite lookup_insert_ne by exact Hab1.
    apply lookup_insert_eq. }
  assert (Hb12 : b1 <> b2).
  { intros Heq. apply (is_fresh (dom st2)). fold b2. rewrite <- Heq.
    apply elem_of_dom. rewrite Hb1. now eexists. }
  exists b1, st1, st2, b2, st3, (node_of_seq s), (node_of_seq s').
  split; [exact (new_list_node_at k st a s Ha Hs)|].
  split.
  { cbn. rewrite Ha1. rewrite Hs, Hs'.
    destruct (decide (k = k)); [reflexivity | contradiction]. }
  split.
  { apply (new_list_node_at k st2 a s'); [|exact Hs'].
    subst st2. apply lookup_insert_eq. }
  split; [exact Hb12|].
  split; [subst st3; now rewrite lookup_insert_ne|].
  split; [apply members_node_of_seq|].
  split; [subst st3; apply lookup_insert_eq | apply members_node_of_seq].
Qed.

Lemma list_nodes_are_snapshots_witness :
  exists b1 st1 st2 b2 st3 n1 n2,
    new_list_node KDecl sample_store (ref 1%positive) = Some (b1, st1) /\
    run_op st1 (Mutate 1%positive (DeclSeq [])) = Some st2 /\
    new_list_node KDecl st2 (ref 1%positive) = Some (b2, st3) /\
    b1 <> b2 /\
    st3 !! b1 = Some (ONode n1) /\
    members n1 = DeclSeq [Some sample_struct; Some sample_main] /\
    st3 !! b2 = Some (ONode n2) /\ members n2 = DeclSeq [].
Proof.
  apply (list_nodes_are_snapshots KDecl sample_store 1%positive
           (DeclSeq [Some sample_struct; Some sample_main]) (DeclSeq []));
    reflexivity.
Defined.

(** ** More on the class table *)

(** X9: every class the header defines is [ASTNode] or derives from it
    through at most two base classes, so every node has [unparse] and
    [doIndent]; in particular the inheritance chains have no cycle. *)
Theorem every_class_is_an_ASTNode (cls : string) (d : ClassTable.ClassDef) :
  ClassTable.ast_hpp !! cls = Some d ->
  ClassTable.inherits 2 cls "ASTNode" = true.
Proof.
  revert cls d.
  change (map_Forall (fun cls _ => ClassTable.inherits 2 cls "ASTNode" = true)
            ClassTable.ast_hpp).
  apply (bool_decide_unpack _). vm_compute. exact I.
Qed.

Lemma every_class_is_an_ASTNode_witness :
  ClassTable.inherits 2 "StructNode" "ASTNode" = true.
Proof.
  apply (every_class_is_an_ASTNode "StructNode"
           (ClassTable.mkClassDef (Some "TypeNode") false
              [ClassTable.PNode "IdNode"])).
  vm_compute. reflexivity.
Defined.

(** X10: every AST class that a constructor takes, as a pointer or as the
    element type of a list, is defined in the header: no constructor
    depends on a class that is only forward-declared. *)
Theorem ctor_parameters_are_defined (cls c : string)
    (d : ClassTable.ClassDef) :
  ClassTable.ast_hpp !! cls = Some d ->
  In c (ClassTable.param_classes (ClassTable.ctor_params d)) ->
  is_Some (ClassTable.ast_hpp !! c).
Proof.
  intros Hcls Hin. revert cls d Hcls c Hin.
  change (map_Forall
            (fun _ d =>
               forall c, In c (ClassTable.param_classes
                                 (ClassTable.ctor_params d)) ->
                         is_Some (ClassTable.ast_hpp !! c))
            ClassTable.ast_hpp).
  eapply map_Forall_impl;
    [|intros cls d H c Hin; exact (proj1 (Forall_forall _ _) H c
                                     (proj2 (list_elem_of_In _ _) Hin))].
  apply (bool_decide_unpack _). vm_compute. exact I.
Qed.

Lemma ctor_parameters_are_defined_witness :
  is_Some (ClassTable.ast_hpp !! "FnBodyNode").
Proof.
  apply (ctor_parameters_are_defined "FnDeclNode" "FnBodyNode"
           (ClassTable.mkClassDef (Some "DeclNode") false
              [ClassTable.PNode "TypeNode"; ClassTable.PNode "IdNode";
               ClassTable.PNode "FormalsListNode";
               ClassTable.PNode "FnBodyNode"]));
    [vm_compute; reflexivity | cbn; tauto].
Defined.

(** X11: the classes used as a base are exactly the classes that declare
    [unparse] pure virtual: a class that can be instantiated is never
    derived from, and every abstract class has a subclass. *)
Theorem bases_are_the_abstract_classes (cls : string)
    (d : ClassTable.ClassDef) :
  ClassTable.ast_hpp !! cls = Some d ->
  ClassTable.is_base cls = ClassTable.pure_unparse d.
Proof.
  revert cls d.
  change (map_Forall
            (fun cls d => ClassTable.is_base cls = ClassTable.pure_unparse d)
            ClassTable.ast_hpp).
  apply (bool_decide_unpack _). vm_compute. exact I.
Qed.

Lemma bases_are_the_abstract_classes_witness :
  ClassTable.is_base "AssignNode" = false.
Proof.
  apply (bases_are_the_abstract_classes "AssignNode"
           (ClassTable.mkClassDef (Some "ExpNode") false
              [ClassTable.PNode "ExpNode"; ClassTable.PNode "ExpNode"])).
  vm_compute. reflexivity.
Defined.

(** ** The size sentinel *)

(** X12: the sentinel [NOT_STRUCT] is negative, so a variable declaration
    built with a size that is zero or positive never holds the sentinel:
    no array size can be mistaken for "not a struct". *)
Theorem size_never_collides_with_sentinel (type : option TypeNode)
    (id : option IdNode) (size : Z) :
  0 <= size ->
  mySize (VarDeclNode_ctor type id size) = Some size /\
  mySize (VarDeclNode_ctor type id size) <> Some NOT_STRUCT.
Proof.
  intros Hsize. split; [reflexivity|].
  cbn. unfold NOT_STRUCT. intros Heq. injection Heq as Heq. lia.
Qed.

Lemma size_never_collides_with_sentinel_witness :
  mySize (VarDeclNode_ctor (Some IntNode) (Some (mkIdNode "a")) 0) = Some 0 /\
  mySize (VarDeclNode_ctor (Some IntNode) (Some (mkIdNode "a")) 0)
    <> Some NOT_STRUCT.
Proof.
  apply (size_never_collides_with_sentinel (Some IntNode)
           (Some (mkIdNode "a")) 0). lia.
Defined.

(** * Rendering and the state it reads *)

(** ** Printers that agree on every sink *)






(** ** A render reads the token memory only through the tokens of the tree *)

Section TokenFrame.
Variable fmt : Format.
Variables m1 m2 : TokenMem.





End TokenFrame.




(** * Rendering at a level that is zero or negative *)


Section LevelFrame.
Variable fmt : Format.
Variable tokens : TokenMem.




End LevelFrame.

Example sample_program_at_minus_1_is_unindented :
  unindented <$> unparse_Program lilc sample_tokens sample_program (-1) "" =
  Some true.
Proof. vm_compute. reflexivity. Qed.



